(** * simple-pubsub: an in-process publish/subscribe bus over vending machines

    The repository holds two revisions of one program:

    - [src/app.ts]: the bus re-publishes a follow-up event recursively from
      inside the fan-out ([Recursive] below);
    - [src/unnamed/part_000]: the bus pushes follow-up events on a
      caller-owned array that the driver drains from the front ([Queued]).

    Both share the event classes, the [Machine] class and the code of
    [subscribe] / [unsubscribe].

    Modelling choices.
    - [number] fields (stock levels, quantities) hold integers, [Z].  A JS
      number is a binary64 float: [+] and [-] on integers are exact as long
      as the operands and the result lie within [-2^53, 2^53], and round
      beyond.  The handlers below compute in [Z]; a theorem that concludes
      the value of a sum or a difference for arbitrary stocks or quantities
      carries that range as a hypothesis ([exact_integer], [exact_calls]).
    - The [machines] array is created once by the driver and handed to every
      subscriber; handlers mutate the objects in it.  It is one shared store,
      a [list Machine] threaded through every handler.
    - [Map<string, Set<ISubscriber>>] is a [gmap string (list Sub)]: a JS [Set]
      iterates in insertion order and compares objects by reference, so a set
      is the list of its members in insertion order and a subscriber object
      carries its reference.
    - A thrown [TypeError] is an explicit completion. *)

From stdpp Require Import gmap strings list.
From Stdlib Require Import ZArith Lia.

(** ** Events (both files, classes [Machine*Event], [LowStockWarningEvent],
       [StockLevelOkEvent]) *)

Inductive Event : Type :=
| MachineSaleEvent (_sold : Z) (_machineId : string)
| MachineRefillEvent (_refill : Z) (_machineId : string)
| LowStockWarningEvent (_machineId : string)
| StockLevelOkEvent (_machineId : string).

#[global] Instance Event_eq_dec : EqDecision Event.
Proof. solve_decision. Defined.

Definition type (e : Event) : string :=
  match e with
  | MachineSaleEvent _ _ => "sale"
  | MachineRefillEvent _ _ => "refill"
  | LowStockWarningEvent _ => "LowStock"
  | StockLevelOkEvent _ => "StockLevelOk"
  end.

Definition machineId (e : Event) : string :=
  match e with
  | MachineSaleEvent _ i | MachineRefillEvent _ i => i
  | LowStockWarningEvent i | StockLevelOkEvent i => i
  end.

(** ** Machines *)

Record Machine : Type := { id : string; stockLevel : Z }.

#[global] Instance Machine_eq_dec : EqDecision Machine.
Proof. solve_decision. Defined.

(** [machines.find((m) => m.id === machineId)]: the first machine with that
    id, together with its position in the array (the position stands for the
    object reference that the handler then writes through). *)
Definition find (machines : list Machine) (machineId : string)
  : option (nat * Machine) :=
  list_find (λ m, id m = machineId) machines.

(** [machine.stockLevel = v] for the object at position [i]. *)
Definition set_stockLevel (i : nat) (v : Z) (machines : list Machine)
  : list Machine :=
  alter (λ m, {| id := id m; stockLevel := v |}) i machines.

(** The stock of the machine that [find] returns for an id. *)
Definition stock_of (machines : list Machine) (machineId : string) : option Z :=
  (λ p, stockLevel p.2) <$> find machines machineId.

(** The integers on which binary64 arithmetic is exact: every integer of
    absolute value at most 2^53 is a JS number, and a sum or difference of
    two of them that is again in that range is computed without rounding. *)
Definition MAX_EXACT : Z := 9007199254740992.

Definition exact_integer (z : Z) : Prop :=
  (- MAX_EXACT ≤ z ≤ MAX_EXACT)%Z.

Definition exact_integerb (z : Z) : bool :=
  ((- MAX_EXACT <=? z) && (z <=? MAX_EXACT))%Z.

(** ** The subscription registry (both files, lines 17-29) *)

Section Registry.
Context {Sub : Type} `{EqDecision Sub}.

Record State : Type := {
  subscribers : gmap string (list Sub);
  machines : list Machine
}.

(** [Set.prototype.add]: no effect on a member, else appended last. *)
Definition Set_add (x : Sub) (set : list Sub) : list Sub :=
  if decide (x ∈ set) then set else set ++ [x].

(** [Set.prototype.delete]. *)
Definition Set_delete (x : Sub) (set : list Sub) : list Sub :=
  filter (λ y, y ≠ x) set.

Definition subscribe (eventType : string) (subscriber : Sub) (st : State)
  : State :=
  let subs1 :=
    match subscribers st !! eventType with
    | None => <[eventType := []]> (subscribers st)
    | Some _ => subscribers st
    end in
  {| subscribers := alter (Set_add subscriber) eventType subs1;
     machines := machines st |}.

Definition unsubscribe (eventType : string) (subscriber : Sub) (st : State)
  : State :=
  {| subscribers := alter (Set_delete subscriber) eventType (subscribers st);
     machines := machines st |}.

Definition getSubscribers (st : State) : gmap string (list Sub) :=
  subscribers st.

(** The state of a fresh [PublishSubscribeService] next to a given array
    of machines. *)
Definition new_service (machines : list Machine) : State :=
  {| subscribers := ∅; machines := machines |}.

(** Every set of the registry holds a subscriber at most once; true of
    [new_service] and kept by [subscribe] and [unsubscribe]. *)
Definition registry_wf (st : State) : Prop :=
  ∀ t set, subscribers st !! t = Some set → NoDup set.
End Registry.

Arguments State : clear implicits.

(** ** [src/app.ts]: recursive dispatch *)

Module Recursive.

(** The two subscriber classes of [src/app.ts]; [ref] is the object's
    identity. *)
Inductive Subscriber : Type :=
| MachineSaleSubscriber (ref : nat)
| MachineRefillSubscriber (ref : nat).

#[global] Instance RecursiveSubscriber_eq_dec : EqDecision Subscriber.
Proof. solve_decision. Defined.

(** How a call of [handle] completes: it returns (the machines as left by
    the handler, and the follow-up event or [undefined]) or it throws a
    [TypeError] (calling an accessor that the event's class lacks). *)
Inductive Completion : Type :=
| Normal (machines : list Machine) (newEvent : option Event)
| TypeError.

(** [event.getSoldQuantity()] and [event.getRefillQuantity()]: [None] when
    the event's class has no such method, and the call throws. *)
Definition getSoldQuantity (e : Event) : option Z :=
  match e with MachineSaleEvent q _ => Some q | _ => None end.

Definition getRefillQuantity (e : Event) : option Z :=
  match e with MachineRefillEvent q _ => Some q | _ => None end.

(** [app.ts] lines 105-131.  The handlers do not look at the class of the
    event; the accessor call is reached only when the machine is found,
    and a throw happens before the assignment.  The [-=] and [+=] are
    computed in [Z]: they are those of the code while operands and result
    are integers within [-2^53, 2^53] ([exact_integer]). *)
Definition handle (subscriber : Subscriber) (event : Event)
    (machines : list Machine) : Completion :=
  match subscriber with
  | MachineSaleSubscriber _ =>
      match find machines (machineId event) with
      | Some (i, machine) =>
          match getSoldQuantity event with
          | Some q =>
              let level := (stockLevel machine - q)%Z in
              let machines' := set_stockLevel i level machines in
              if decide (level < 3)%Z
              then Normal machines' (Some (LowStockWarningEvent (id machine)))
              else Normal machines' None
          | None => TypeError
          end
      | None => Normal machines None
      end
  | MachineRefillSubscriber _ =>
      match find machines (machineId event) with
      | Some (i, machine) =>
          match getRefillQuantity event with
          | Some q =>
              let level := (stockLevel machine + q)%Z in
              let machines' := set_stockLevel i level machines in
              if decide (level >= 3)%Z
              then Normal machines' (Some (StockLevelOkEvent (id machine)))
              else Normal machines' None
          | None => TypeError
          end
      | None => Normal machines None
      end
  end.

(** A call of [handle], for the trace of deliveries. *)
Definition Call : Type := Subscriber * Event.

(** How [publish] completes.  A throw inside the fan-out leaves through
    [forEach] and every enclosing [publish]; what was written to the
    machines before stays written. *)
Inductive Result : Type :=
| Returned (st : State Subscriber) (calls : list Call)
| Threw (st : State Subscriber) (calls : list Call)
| OutOfFuel.

Definition with_machines (st : State Subscriber) (ms : list Machine)
  : State Subscriber :=
  {| subscribers := subscribers st; machines := ms |}.

Definition add_calls (cs : list Call) (r : Result) : Result :=
  match r with
  | Returned st calls => Returned st (cs ++ calls)
  | Threw st calls => Threw st (cs ++ calls)
  | OutOfFuel => OutOfFuel
  end.

(** [subscribers.forEach(...)] of [publish], lines 34-37; [publish] is the
    recursive call. *)
Fixpoint forEach (publish : State Subscriber → Event → Result)
    (set : list Subscriber) (event : Event) (st : State Subscriber)
  : Result :=
  match set with
  | [] => Returned st []
  | subscriber :: rest =>
      match handle subscriber event (machines st) with
      | TypeError => Threw st [(subscriber, event)]
      | Normal ms None =>
          add_calls [(subscriber, event)]
            (forEach publish rest event (with_machines st ms))
      | Normal ms (Some newEvent) =>
          match publish (with_machines st ms) newEvent with
          | Returned st' calls =>
              add_calls ((subscriber, event) :: calls)
                (forEach publish rest event st')
          | Threw st' calls => Threw st' ((subscriber, event) :: calls)
          | OutOfFuel => OutOfFuel
          end
      end
  end.

(** [publish], lines 31-39; [fuel] bounds the depth of the recursion. *)
Fixpoint publish (fuel : nat) (st : State Subscriber) (event : Event)
  : Result :=
  match fuel with
  | O => OutOfFuel
  | S fuel' =>
      match subscribers st !! type event with
      | Some set => forEach (publish fuel') set event st
      | None => Returned st []
      end
  end.

(** A property of the state and trace that a completed [publish] leaves,
    whether it returned or threw. *)
Definition on_completion (P : State Subscriber → list Call → Prop)
    (r : Result) : Prop :=
  match r with
  | Returned st calls | Threw st calls => P st calls
  | OutOfFuel => True
  end.

(** The number of times a subscriber was handed an event in a trace. *)
Definition deliveries (subscriber : Subscriber) (event : Event)
    (calls : list Call) : nat :=
  length (filter (λ c, c = (subscriber, event)) calls).

(** Depth of the cascade that an event can start in [app.ts]: a sale or a
    refill can be answered, a warning or a stock-ok notice cannot. *)
Definition rank (e : Event) : nat :=
  match e with
  | MachineSaleEvent _ _ | MachineRefillEvent _ _ => 1
  | LowStockWarningEvent _ | StockLevelOkEvent _ => 0
  end.

(** The event class named in the signature of a subscriber's [handle]. *)
Definition specialised_to (subscriber : Subscriber) (event : Event) : bool :=
  match subscriber, event with
  | MachineSaleSubscriber _, MachineSaleEvent _ _
  | MachineRefillSubscriber _, MachineRefillEvent _ _ => true
  | _, _ => false
  end.

End Recursive.

(** ** [src/unnamed/part_000]: queued dispatch *)

Module Queued.

Inductive Subscriber : Type :=
| MachineSaleSubscriber (ref : nat)
| MachineRefillSubscriber (ref : nat)
| StockwarningSubscriber (ref : nat)
| StockLevelOkSubscriber (ref : nat).

#[global] Instance QueuedSubscriber_eq_dec : EqDecision Subscriber.
Proof. solve_decision. Defined.

(** [handle] of the four classes, lines 110-184.  Each starts with an
    [instanceof] test on the event.  The [-=], [+=] and [3 - stockLevel]
    are computed in [Z]: they are those of the code while operands and
    result are integers within [-2^53, 2^53] ([exact_integer]). *)
Definition handle (subscriber : Subscriber) (event : Event)
    (machines : list Machine) : list Machine * option Event :=
  match subscriber, event with
  | MachineSaleSubscriber _, MachineSaleEvent sold mid =>
      match find machines mid with
      | Some (i, machine) =>
          let oldLevel := stockLevel machine in
          let level := (oldLevel - sold)%Z in
          let machines' := set_stockLevel i level machines in
          if decide ((level < 3)%Z ∧ (oldLevel >= 3)%Z)
          then (machines', Some (LowStockWarningEvent (id machine)))
          else (machines', None)
      | None => (machines, None)
      end
  | MachineRefillSubscriber _, MachineRefillEvent refill mid =>
      match find machines mid with
      | Some (i, machine) =>
          let oldLevel := stockLevel machine in
          let level := (oldLevel + refill)%Z in
          let machines' := set_stockLevel i level machines in
          if decide ((level >= 3)%Z ∧ (oldLevel < 3)%Z)
          then (machines', Some (StockLevelOkEvent (id machine)))
          else (machines', None)
      | None => (machines, None)
      end
  | StockwarningSubscriber _, LowStockWarningEvent mid =>
      match find machines mid with
      | Some (i, machine) =>
          (machines,
           Some (MachineRefillEvent (3 - stockLevel machine)%Z (id machine)))
      | None => (machines, None)
      end
  | StockLevelOkSubscriber _, StockLevelOkEvent mid =>
      match find machines mid with
      | Some _ => (machines, None)
      | None => (machines, None)
      end
  | _, _ => (machines, None)
  end.

(** A call of [handle] with what it returned, for the trace of a run:
    the subscriber, the event handed to it, and the follow-up event or
    [undefined]. *)
Definition Call : Type := Subscriber * Event * option Event.

(** The events that the calls of a trace returned, in order: what
    [publish] pushed on the array. *)
Definition follow_ups (calls : list Call) : list Event :=
  omap snd calls.

(** [subscribers.forEach(...)] of [publish], lines 35-39:
    [events.push(newEvent)] appends to the caller's array. *)
Fixpoint forEach (set : list Subscriber) (event : Event)
    (machines : list Machine) (events : list Event)
  : list Machine * list Event * list Call :=
  match set with
  | [] => (machines, events, [])
  | subscriber :: rest =>
      let '(machines', newEvent) := handle subscriber event machines in
      let events' :=
        match newEvent with
        | Some e => events ++ [e]
        | None => events
        end in
      let '(machines'', events'', calls) :=
        forEach rest event machines' events' in
      (machines'', events'', (subscriber, event, newEvent) :: calls)
  end.

(** [publish(_event, events)], lines 31-41. *)
Definition publish (st : State Subscriber) (_event : Event)
    (events : list Event) : State Subscriber * list Event * list Call :=
  let event := _event in
  match subscribers st !! type event with
  | Some set =>
      let '(ms, events', calls) := forEach set event (machines st) events in
      ({| subscribers := subscribers st; machines := ms |}, events', calls)
  | None => (st, events, [])
  end.

(** What a completed drain leaves: the final state, the events handed to
    [publish] in order, and the calls of [handle] in order. *)
Record Run : Type := {
  final : State Subscriber;
  delivered : list Event;
  calls : list Call
}.

(** The driver's loop, lines 244-246:
    [while (events.length > 0) publish(events.shift(), events)].
    [fuel] bounds the number of iterations. *)
Fixpoint drain (fuel : nat) (st : State Subscriber) (events : list Event)
  : option Run :=
  match events with
  | [] => Some {| final := st; delivered := []; calls := [] |}
  | event :: rest =>
      match fuel with
      | O => None
      | S fuel' =>
          let '(st', events', cs) := publish st event rest in
          match drain fuel' st' events' with
          | Some r =>
              Some {| final := final r;
                      delivered := event :: delivered r;
                      calls := cs ++ calls r |}
          | None => None
          end
      end
  end.

(** The registrations of the driver, lines 230-238. *)
Definition saleSubscriber := MachineSaleSubscriber 0.
Definition refilSubscriber := MachineRefillSubscriber 1.
Definition stockWarningSubscriber := StockwarningSubscriber 2.
Definition stockLevelOkSubscriber := StockLevelOkSubscriber 3.

Definition driver_service (machines : list Machine) : State Subscriber :=
  subscribe "StockLevelOk" stockLevelOkSubscriber
    (subscribe "LowStock" stockWarningSubscriber
      (subscribe "refill" refilSubscriber
        (subscribe "sale" saleSubscriber (new_service machines)))).

(** The number of times a subscriber was called in a trace. *)
Definition deliveries (subscriber : Subscriber) (calls : list Call) : nat :=
  length (filter (λ c, c.1.1 = subscriber) calls).

(** Measures for the termination of [drain].  A follow-up event sits one
    step further down the chain Sale, LowStockWarning, Refill,
    StockLevelOk. *)
Definition rank (e : Event) : nat :=
  match e with
  | MachineSaleEvent _ _ => 3
  | LowStockWarningEvent _ => 2
  | MachineRefillEvent _ _ => 1
  | StockLevelOkEvent _ => 0
  end.

Definition fan_of (st : State Subscriber) (t : string) : nat :=
  length (default [] (subscribers st !! t)).

(** A bound on the size of the set that [publish] iterates. *)
Definition fan (st : State Subscriber) : nat :=
  fan_of st "sale" + fan_of st "refill"
  + fan_of st "LowStock" + fan_of st "StockLevelOk".

(** An event of rank [r] costs one iteration plus what its at most [n]
    follow-ups cost. *)
Fixpoint weight (n r : nat) : nat :=
  match r with
  | O => 1
  | S r' => 1 + n * weight n r'
  end.

Definition cost (n : nat) (events : list Event) : nat :=
  sum_list_with (λ e, weight n (rank e)) events.

(** The event class a subscriber class is written for (the class named
    in its [instanceof] test). *)
Definition specialised_to (subscriber : Subscriber) (event : Event) : bool :=
  match subscriber, event with
  | MachineSaleSubscriber _, MachineSaleEvent _ _
  | MachineRefillSubscriber _, MachineRefillEvent _ _
  | StockwarningSubscriber _, LowStockWarningEvent _
  | StockLevelOkSubscriber _, StockLevelOkEvent _ => true
  | _, _ => false
  end.

End Queued.

(** ** The rest of [src/unnamed/part_000]: machines, generator, program *)

Module Program.

(** [new Machine(id)], lines 187-195: the stock starts at 3. *)
Definition new_Machine (id : string) : Machine :=
  {| id := id; stockLevel := 3 |}.

(** The array of the program, lines 221-225. *)
Definition program_machines : list Machine :=
  [new_Machine "001"; new_Machine "002"; new_Machine "003"].

Section Generator.
(** The helpers compare and multiply what [Math.random()] returns.  The
    type of JS numbers, its [<] and [*], the literals the helpers use and
    the random source are parameters: [draw k] is what the [k]-th call of
    [Math.random()] returns, and the number of calls made so far is
    threaded through. *)
Context {number : Type}.
Context (lt : number → number → bool) (times : number → number → number).
Context (n0_5 n1 n2 n3 : number).
Context (draw : nat → number).

Definition Math_random (k : nat) : number * nat := (draw k, S k).

(** [randomMachine], lines 198-206. *)
Definition randomMachine (k : nat) : string * nat :=
  let '(r, k) := Math_random k in
  let random := times r n3 in
  if lt random n1 then ("001", k)
  else if lt random n2 then ("002", k)
  else ("003", k).

(** [eventGenerator], lines 208-216. *)
Definition eventGenerator (k : nat) : Event * nat :=
  let '(random, k) := Math_random k in
  if lt random n0_5 then
    let '(r, k) := Math_random k in
    let saleQty := if lt r n0_5 then 1%Z else 2%Z in
    let '(mid, k) := randomMachine k in
    (MachineSaleEvent saleQty mid, k)
  else
    let '(r, k) := Math_random k in
    let refillQty := if lt r n0_5 then 3%Z else 5%Z in
    let '(mid, k) := randomMachine k in
    (MachineRefillEvent refillQty mid, k).

(** [l.map((i) => eventGenerator())]. *)
Fixpoint map_eventGenerator (l : list Z) (k : nat) : list Event * nat :=
  match l with
  | [] => ([], k)
  | _ :: l' =>
      let '(e, k) := eventGenerator k in
      let '(es, k) := map_eventGenerator l' k in
      (e :: es, k)
  end.

(** The program, lines 219-251, up to the end of the loop: the machines,
    the service with its four registrations, five generated events, and
    the drain.  [fuel] bounds the iterations of the loop. *)
Definition program (fuel : nat) : option Queued.Run :=
  let machines := program_machines in
  let pubSubService := Queued.driver_service machines in
  let '(events, _) := map_eventGenerator [1; 2; 3; 4; 5]%Z 0 in
  Queued.drain fuel pubSubService events.
End Generator.

(** An event that [eventGenerator] can return. *)
Definition generated (e : Event) : Prop :=
  ∃ q mid,
    mid ∈ ["001"; "002"; "003"]
    ∧ ((e = MachineSaleEvent q mid ∧ (q = 1 ∨ q = 2)%Z)
       ∨ (e = MachineRefillEvent q mid ∧ (q = 3 ∨ q = 5)%Z)).

End Program.

(** ** Measures and predicates of the further properties *)

Module QueuedRun.
Import Queued.

(** The largest set of the registry that [publish] can iterate. *)
Definition width (st : State Subscriber) : nat :=
  Nat.max (Nat.max (fan_of st "sale") (fan_of st "refill"))
    (Nat.max (fan_of st "LowStock") (fan_of st "StockLevelOk")).

(** What a call of [handle] adds to the stock of the machine found for
    [mid]: a Sale handled by a Sale subscriber takes its quantity off, a
    Refill handled by a Refill subscriber adds its quantity. *)
Definition effect (mid : string) (c : Call) : Z :=
  match c with
  | (MachineSaleSubscriber _, MachineSaleEvent q i, _) =>
      if decide (i = mid) then (- q)%Z else 0%Z
  | (MachineRefillSubscriber _, MachineRefillEvent q i, _) =>
      if decide (i = mid) then q else 0%Z
  | _ => 0%Z
  end.

Definition total_effect (mid : string) (cs : list Call) : Z :=
  foldr (λ c acc, (effect mid c + acc)%Z) 0%Z cs.

(** The same, read off a delivered event when one Sale subscriber and one
    Refill subscriber are registered. *)
Definition event_effect (mid : string) (e : Event) : Z :=
  match e with
  | MachineSaleEvent q i => if decide (i = mid) then (- q)%Z else 0%Z
  | MachineRefillEvent q i => if decide (i = mid) then q else 0%Z
  | _ => 0%Z
  end.

Definition is_sale (e : Event) : bool :=
  match e with MachineSaleEvent _ _ => true | _ => false end.

(** The set that [publish] iterates for an event. *)
Definition set_of (st : State Subscriber) (e : Event) : list Subscriber :=
  default [] (subscribers st !! type e).

(** Who was called with what, call by call. *)
Definition pairs (cs : list Call) : list (Subscriber * Event) :=
  (λ c, c.1) <$> cs.

(** The machines after the calls of a trace, made in order from [ms]. *)
Definition replay (ms : list Machine) (cs : list Call) : list Machine :=
  foldl (λ ms c, (handle c.1.1 c.1.2 ms).1) ms cs.

(** A trace is sound from [ms] when every call records what [handle]
    returned on the machines that the calls before it left. *)
Fixpoint sound (ms : list Machine) (cs : list Call) : Prop :=
  match cs with
  | [] => True
  | (s, e, o) :: cs' =>
      o = (handle s e ms).2 ∧ sound (handle s e ms).1 cs'
  end.

(** The arithmetic of one call of [handle] on [ms] stays in the range
    where binary64 is exact: the operands and the result of the [-=] of
    the Sale handler, of the [+=] of the Refill handler, and of the
    [3 - stockLevel] of the warning handler. *)
Definition exact_call (s : Subscriber) (e : Event) (ms : list Machine)
  : bool :=
  match s, e with
  | MachineSaleSubscriber _, MachineSaleEvent q mid =>
      match find ms mid with
      | Some (_, m) =>
          exact_integerb (stockLevel m) && exact_integerb q
          && exact_integerb (stockLevel m - q)
      | None => true
      end
  | MachineRefillSubscriber _, MachineRefillEvent q mid =>
      match find ms mid with
      | Some (_, m) =>
          exact_integerb (stockLevel m) && exact_integerb q
          && exact_integerb (stockLevel m + q)
      | None => true
      end
  | StockwarningSubscriber _, LowStockWarningEvent mid =>
      match find ms mid with
      | Some (_, m) =>
          exact_integerb (stockLevel m)
          && exact_integerb (3 - stockLevel m)
      | None => true
      end
  | _, _ => true
  end.

(** The same for every call of a trace made in order from [ms]: the run
    never leaves the range, so it is the run of the code. *)
Fixpoint exact_calls (ms : list Machine) (cs : list Call) : bool :=
  match cs with
  | [] => true
  | (s, e, _) :: cs' =>
      exact_call s e ms && exact_calls (handle s e ms).1 cs'
  end.

End QueuedRun.

Module RecursiveRun.
Import Recursive.

(** Every subscriber is registered under the type of the events its
    [handle] is written for.  No class of [app.ts] is written for a warning
    or a stock-ok notice, so their sets are then empty or absent. *)
Definition well_typed (st : State Subscriber) : Prop :=
  ∀ e set s,
    subscribers st !! type e = Some set → s ∈ set →
    specialised_to s e = true.

Definition returned (r : Result) : Prop :=
  match r with Returned _ _ => True | _ => False end.

End RecursiveRun.

(** * Properties *)

(** ** The machine store *)

Section Store.
Implicit Types (ms : list Machine) (m : Machine) (mid : string) (i : nat).

Lemma find_Some_inv ms mid i m :
  find ms mid = Some (i, m) → ms !! i = Some m ∧ id m = mid.
Proof. unfold find. rewrite list_find_Some. tauto. Qed.

Lemma find_None_iff ms mid :
  find ms mid = None ↔ ∀ m, m ∈ ms → id m ≠ mid.
Proof. unfold find. rewrite list_find_None, Forall_forall. done. Qed.

(** Writing a stock level keeps every id in place, so [find] reaches the
    same position for every id. *)
Lemma find_set_stockLevel ms mid i v :
  find (set_stockLevel i v ms) mid =
  (λ p, (p.1, if decide (p.1 = i)
              then {| id := id p.2; stockLevel := v |} else p.2))
    <$> find ms mid.
Proof.
  unfold find, set_stockLevel. revert i.
  induction ms as [|m0 ms IH]; intros [|i]; simpl; try done.
  - case_decide; simpl; [done|].
    by destruct (list_find _ ms) as [[j mj]|].
  - case_decide; simpl; [done|].
    change (list_alter ?f ?k ?l) with (alter f k l). rewrite IH.
    destruct (list_find _ ms) as [[j mj]|]; simpl; [|done].
    do 2 case_decide; simpl; try done; lia.
Qed.

Lemma find_set_stockLevel_same ms mid i m v :
  find ms mid = Some (i, m) →
  find (set_stockLevel i v ms) mid
  = Some (i, {| id := id m; stockLevel := v |}).
Proof.
  intros Hf. rewrite find_set_stockLevel, Hf. simpl.
  by rewrite decide_True.
Qed.

Lemma find_set_stockLevel_other ms mid mid' i m v :
  find ms mid = Some (i, m) → mid' ≠ mid →
  find (set_stockLevel i v ms) mid' = find ms mid'.
Proof.
  intros Hf Hne. rewrite find_set_stockLevel.
  destruct (find ms mid') as [[j mj]|] eqn:Hf'; simpl; [|done].
  rewrite decide_False; [done|]. intros ->.
  apply find_Some_inv in Hf as [Hi <-], Hf' as [Hj <-]. congruence.
Qed.

(** Writing back the level a machine already has changes nothing. *)
Lemma set_stockLevel_id ms i m :
  ms !! i = Some m → set_stockLevel i (stockLevel m) ms = ms.
Proof.
  intros Hi. unfold set_stockLevel. apply list_eq. intros j.
  destruct (decide (i = j)) as [<-|Hne].
  - rewrite list_lookup_alter_eq, Hi. simpl. by destruct m.
  - by rewrite list_lookup_alter_ne.
Qed.

Lemma set_stockLevel_twice ms i v w :
  set_stockLevel i w (set_stockLevel i v ms) = set_stockLevel i w ms.
Proof.
  unfold set_stockLevel. rewrite list_alter_alter_eq.
  by apply list_alter_ext.
Qed.

(** With one machine per id (the registry as the driver builds it), a
    registered machine is the one that [find] returns for its id. *)
Lemma find_registered ms i m :
  NoDup (id <$> ms) → ms !! i = Some m → find ms (id m) = Some (i, m).
Proof.
  intros Hnd Hi. unfold find. apply list_find_Some.
  split_and!; [done..|]. intros j y Hj Hlt Heq.
  assert (j = i); [|lia].
  eapply NoDup_lookup; [exact Hnd| |];
    rewrite list_lookup_fmap; [by rewrite Hj | by rewrite Hi, Heq].
Qed.

Lemma stock_of_found ms mid i m :
  find ms mid = Some (i, m) → stock_of ms mid = Some (stockLevel m).
Proof. unfold stock_of. by intros ->. Qed.
End Store.

(** ** Handlers of [src/unnamed/part_000] *)

Section QueuedHandlers.
Import Queued.
Implicit Types (ms : list Machine) (m : Machine) (mid : string) (i : nat).
Local Open Scope Z_scope.

Lemma sale_found ref ms mid q i m :
  find ms mid = Some (i, m) →
  handle (MachineSaleSubscriber ref) (MachineSaleEvent q mid) ms =
  (set_stockLevel i (stockLevel m - q) ms,
   if decide (stockLevel m - q < 3 ∧ stockLevel m >= 3)
   then Some (LowStockWarningEvent mid) else None).
Proof.
  intros Hf. simpl. rewrite Hf. apply find_Some_inv in Hf as [_ ->].
  by case_decide.
Qed.

Lemma refill_found ref ms mid q i m :
  find ms mid = Some (i, m) →
  handle (MachineRefillSubscriber ref) (MachineRefillEvent q mid) ms =
  (set_stockLevel i (stockLevel m + q) ms,
   if decide (stockLevel m + q >= 3 ∧ stockLevel m < 3)
   then Some (StockLevelOkEvent mid) else None).
Proof.
  intros Hf. simpl. rewrite Hf. apply find_Some_inv in Hf as [_ ->].
  by case_decide.
Qed.

Lemma warning_found ref ms mid i m :
  find ms mid = Some (i, m) →
  handle (StockwarningSubscriber ref) (LowStockWarningEvent mid) ms =
  (ms, Some (MachineRefillEvent (3 - stockLevel m) mid)).
Proof.
  intros Hf. simpl. rewrite Hf. by apply find_Some_inv in Hf as [_ ->].
Qed.

Lemma handle_not_found subscriber event ms :
  find ms (machineId event) = None →
  handle subscriber event ms = (ms, None).
Proof.
  intros Hf. destruct subscriber, event; simpl in *; by rewrite ?Hf.
Qed.

Lemma handle_other_class subscriber event ms :
  specialised_to subscriber event = false →
  handle subscriber event ms = (ms, None).
Proof. by destruct subscriber, event. Qed.

(** In [part_000] the Sale handler meets the crossing rule: the stock of
    the targeted machine goes down by the quantity, no other machine is
    touched, and the follow-up is a warning exactly on a downward
    crossing of 3. *)
Lemma queued_sale_crossing ref ms i m q :
  NoDup (id <$> ms) → ms !! i = Some m →
  ∃ ms' newEvent,
    handle (MachineSaleSubscriber ref) (MachineSaleEvent q (id m)) ms
      = (ms', newEvent)
    ∧ ms' !! i = Some {| id := id m; stockLevel := stockLevel m - q |}
    ∧ (∀ j, j ≠ i → ms' !! j = ms !! j)
    ∧ (newEvent = Some (LowStockWarningEvent (id m))
       ↔ 3 ≤ stockLevel m ∧ stockLevel m - q < 3)
    ∧ (newEvent = None ∨ newEvent = Some (LowStockWarningEvent (id m)))
    ∧ (stockLevel m < 3 → newEvent = None).
Proof.
  intros Hnd Hi. eexists _, _.
  split; [apply sale_found, find_registered; done|].
  unfold set_stockLevel. split_and!.
  - by rewrite list_lookup_alter_eq, Hi.
  - intros j Hj. by rewrite list_lookup_alter_ne.
  - case_decide; split; intros; try done; lia.
  - case_decide; auto.
  - intros Hlt. rewrite decide_False; [done|lia].
Qed.

Lemma queued_refill_crossing ref ms i m q :
  NoDup (id <$> ms) → ms !! i = Some m →
  ∃ ms' newEvent,
    handle (MachineRefillSubscriber ref) (MachineRefillEvent q (id m)) ms
      = (ms', newEvent)
    ∧ ms' !! i = Some {| id := id m; stockLevel := stockLevel m + q |}
    ∧ (∀ j, j ≠ i → ms' !! j = ms !! j)
    ∧ (newEvent = Some (StockLevelOkEvent (id m))
       ↔ stockLevel m < 3 ∧ 3 ≤ stockLevel m + q)
    ∧ (newEvent = None ∨ newEvent = Some (StockLevelOkEvent (id m)))
    ∧ (3 ≤ stockLevel m → newEvent = None).
Proof.
  intros Hnd Hi. eexists _, _.
  split; [apply refill_found, find_registered; done|].
  unfold set_stockLevel. split_and!.
  - by rewrite list_lookup_alter_eq, Hi.
  - intros j Hj. by rewrite list_lookup_alter_ne.
  - case_decide; split; intros; try done; lia.
  - case_decide; auto.
  - intros Hlt. rewrite decide_False; [done|lia].
Qed.
End QueuedHandlers.

(** ** Handlers of [src/app.ts] *)

Section RecursiveHandlers.
Import Recursive.
Implicit Types (ms : list Machine) (m : Machine) (mid : string) (i : nat).
Local Open Scope Z_scope.

(** What the Sale handler of [app.ts] does on a registered machine: the
    test reads the new level only. *)
Lemma recursive_sale_found ref ms mid q i m :
  find ms mid = Some (i, m) →
  handle (MachineSaleSubscriber ref) (MachineSaleEvent q mid) ms =
  Normal (set_stockLevel i (stockLevel m - q) ms)
    (if decide (stockLevel m - q < 3)
     then Some (LowStockWarningEvent mid) else None).
Proof.
  intros Hf. simpl. rewrite Hf. apply find_Some_inv in Hf as [_ ->].
  by case_decide.
Qed.

Lemma recursive_refill_found ref ms mid q i m :
  find ms mid = Some (i, m) →
  handle (MachineRefillSubscriber ref) (MachineRefillEvent q mid) ms =
  Normal (set_stockLevel i (stockLevel m + q) ms)
    (if decide (stockLevel m + q >= 3)
     then Some (StockLevelOkEvent mid) else None).
Proof.
  intros Hf. simpl. rewrite Hf. apply find_Some_inv in Hf as [_ ->].
  by case_decide.
Qed.

Lemma recursive_handle_not_found subscriber event ms :
  find ms (machineId event) = None →
  handle subscriber event ms = Normal ms None.
Proof. intros Hf. destruct subscriber; simpl; by rewrite Hf. Qed.

(** An event of another class, aimed at a registered machine, makes the
    handler throw. *)
Lemma recursive_handle_other_class subscriber event ms i m :
  specialised_to subscriber event = false →
  find ms (machineId event) = Some (i, m) →
  handle subscriber event ms = TypeError.
Proof.
  intros Hs Hf. destruct subscriber, event; simpl in *;
    try discriminate; by rewrite Hf.
Qed.

(** A handler of [app.ts] answers only an event of its own class, and the
    answer is a warning or a stock-ok notice. *)
Lemma recursive_handle_follow_up subscriber event ms ms' newEvent :
  handle subscriber event ms = Normal ms' (Some newEvent) →
  specialised_to subscriber event = true
  ∧ (newEvent = LowStockWarningEvent (machineId event)
     ∨ newEvent = StockLevelOkEvent (machineId event)).
Proof.
  destruct subscriber, event; simpl;
    destruct (find ms _) as [[i m]|] eqn:Hf; try done;
    apply find_Some_inv in Hf as [_ <-];
    case_decide; intros [= <- <-]; auto.
Qed.
End RecursiveHandlers.

(** ** The subscription registry *)

Section RegistryFacts.
Context {Sub : Type} `{EqDecision Sub}.
Implicit Types (st : State Sub) (t : string) (s : Sub) (set : list Sub).

Lemma Set_add_elem s set : s ∈ Set_add s set.
Proof. unfold Set_add. case_decide; [done|]. set_solver. Qed.

Lemma Set_add_member s set : s ∈ set → Set_add s set = set.
Proof. intros Hin. unfold Set_add. by rewrite decide_True. Qed.

Lemma Set_add_idem s set : Set_add s (Set_add s set) = Set_add s set.
Proof. apply Set_add_member, Set_add_elem. Qed.

Lemma Set_add_NoDup s set : NoDup set → NoDup (Set_add s set).
Proof.
  intros Hnd. unfold Set_add. case_decide; [done|].
  apply NoDup_app. split_and!; [done| |apply NoDup_singleton].
  intros x Hx ->%list_elem_of_singleton. done.
Qed.

Lemma Set_delete_NoDup s set : NoDup set → NoDup (Set_delete s set).
Proof. apply NoDup_filter. Qed.

Lemma Set_delete_not_elem s set : s ∉ Set_delete s set.
Proof. unfold Set_delete. rewrite list_elem_of_filter. tauto. Qed.

Lemma subscribe_lookup t s st :
  subscribers (subscribe t s st) !! t
  = Some (Set_add s (default [] (subscribers st !! t))).
Proof.
  unfold subscribe. simpl. rewrite lookup_alter_eq.
  destruct (subscribers st !! t) as [set|] eqn:Ht; simpl.
  - by rewrite Ht.
  - by rewrite lookup_insert_eq.
Qed.

Lemma subscribe_lookup_ne t t' s st :
  t ≠ t' → subscribers (subscribe t s st) !! t' = subscribers st !! t'.
Proof.
  intros Hne. unfold subscribe. simpl. rewrite lookup_alter_ne by done.
  destruct (subscribers st !! t); [done|]. by rewrite lookup_insert_ne.
Qed.

Lemma subscribe_machines t s st : machines (subscribe t s st) = machines st.
Proof. done. Qed.

Lemma State_eq st st' :
  subscribers st = subscribers st' → machines st = machines st' → st = st'.
Proof. destruct st, st'. simpl. by intros -> ->. Qed.

Lemma subscribe_idem t s st :
  subscribe t s (subscribe t s st) = subscribe t s st.
Proof.
  apply State_eq; [|done]. apply map_eq. intros t'.
  destruct (decide (t = t')) as [<-|Hne].
  - rewrite (subscribe_lookup t s (subscribe t s st)), subscribe_lookup.
    simpl. by rewrite Set_add_idem.
  - by rewrite (subscribe_lookup_ne t t' s (subscribe t s st)).
Qed.

Lemma unsubscribe_idem t s st :
  unsubscribe t s (unsubscribe t s st) = unsubscribe t s st.
Proof.
  apply State_eq; [|done]. unfold unsubscribe. simpl.
  apply map_eq. intros t'. rewrite !lookup_alter.
  case_decide as Ht; [subst t'|done]. rewrite decide_True by done.
  destruct (subscribers st !! t) as [set|]; simpl; [|done].
  f_equal. unfold Set_delete. induction set as [|x set IH]; [done|].
  rewrite filter_cons. case_decide; [|done].
  rewrite filter_cons, decide_True by done. by f_equal.
Qed.

Lemma new_service_wf ms : registry_wf (new_service (Sub:=Sub) ms).
Proof. intros t set. simpl. by rewrite lookup_empty. Qed.

Lemma subscribe_wf t s st : registry_wf st → registry_wf (subscribe t s st).
Proof.
  intros Hwf t' set. destruct (decide (t = t')) as [<-|Hne].
  - rewrite subscribe_lookup. intros [= <-]. apply Set_add_NoDup.
    destruct (subscribers st !! t) as [set|] eqn:Ht; simpl.
    + by eapply Hwf. + apply NoDup_nil_2.
  - rewrite subscribe_lookup_ne by done. apply Hwf.
Qed.

Lemma unsubscribe_wf t s st :
  registry_wf st → registry_wf (unsubscribe t s st).
Proof.
  intros Hwf t' set. unfold unsubscribe. simpl. rewrite lookup_alter.
  case_decide as Heq; [subst t'|apply Hwf].
  destruct (subscribers st !! t) as [set'|] eqn:Ht; simpl; [|done].
  intros [= <-]. apply Set_delete_NoDup. by eapply Hwf.
Qed.

Lemma filter_eq_not_elem s set : s ∉ set → filter (λ x, x = s) set = [].
Proof.
  induction set as [|x set IH]; [done|]. intros Hs.
  rewrite filter_cons, decide_False by set_solver. apply IH. set_solver.
Qed.

(** In a set without repetition a member occurs once. *)
Lemma NoDup_filter_eq_length s set :
  NoDup set → s ∈ set → length (filter (λ x, x = s) set) = 1.
Proof.
  induction 1 as [|x set Hx Hnd IH]; [by intros ?%not_elem_of_nil|].
  rewrite filter_cons. intros [->|Hin]%elem_of_cons.
  - rewrite decide_True by done. simpl. f_equal.
    by rewrite filter_eq_not_elem.
  - rewrite decide_False; [by apply IH|]. by intros ->.
Qed.
End RegistryFacts.

(** ** The bus of [src/unnamed/part_000] *)

Section QueuedBus.
Import Queued.
Implicit Types (st : State Subscriber) (ms : list Machine).
Implicit Types (e event : Event) (events : list Event).
Implicit Types (set : list Subscriber) (cs : list Call).

Lemma handle_rank s e ms ms' e' :
  handle s e ms = (ms', Some e') → rank e = S (rank e').
Proof.
  destruct s, e; simpl; try done;
    destruct (find ms _) as [[i m]|]; try done;
    try case_decide; by intros [= <- <-].
Qed.

(** The fan-out calls every member of the set once, in order, with the
    event, and leaves the array extended at the back by the follow-ups. *)
Lemma forEach_spec set e ms events ms' events' cs :
  forEach set e ms events = (ms', events', cs) →
  events' = events ++ follow_ups cs
  ∧ (λ c, c.1.1) <$> cs = set
  ∧ Forall (λ c, c.1.2 = e) cs
  ∧ Forall (λ e', rank e = S (rank e')) (follow_ups cs).
Proof.
  revert ms events ms' events' cs.
  induction set as [|s set IH]; intros ms events ms' events' cs; simpl.
  - intros [= <- <- <-]. by rewrite app_nil_r.
  - destruct (handle s e ms) as [ms1 newEvent] eqn:Hh.
    destruct (forEach set e ms1 _) as [[ms2 events2] cs2] eqn:Hfe.
    intros [= <- <- <-]. apply IH in Hfe as (-> & <- & Hev & Hrk).
    unfold follow_ups in *. split_and!.
    + destruct newEvent; simpl; [|done]. by rewrite <- app_assoc.
    + done.
    + by constructor.
    + destruct newEvent as [e'|]; simpl; [|done].
      constructor; [|done]. by eapply handle_rank.
Qed.

Lemma publish_spec st e events st' events' cs :
  publish st e events = (st', events', cs) →
  subscribers st' = subscribers st
  ∧ events' = events ++ follow_ups cs
  ∧ (λ c, c.1.1) <$> cs = default [] (subscribers st !! type e)
  ∧ Forall (λ c, c.1.2 = e) cs
  ∧ Forall (λ e', rank e = S (rank e')) (follow_ups cs).
Proof.
  unfold publish. destruct (subscribers st !! type e) as [set|]; simpl.
  - destruct (forEach set e _ events) as [[ms1 events1] cs1] eqn:Hfe.
    intros [= <- <- <-]. by apply forEach_spec in Hfe as (-> & ? & ? & ?).
  - intros [= <- <- <-]. by rewrite app_nil_r.
Qed.

Lemma follow_ups_length cs : length (follow_ups cs) ≤ length cs.
Proof.
  unfold follow_ups. induction cs as [|[[s e] [e'|]] cs IH]; csimpl; lia.
Qed.

Lemma fan_subscribers st st' :
  subscribers st' = subscribers st → fan st' = fan st.
Proof. unfold fan, fan_of. by intros ->. Qed.

Lemma fan_bound st e :
  length (default [] (subscribers st !! type e)) ≤ fan st.
Proof. unfold fan, fan_of. destruct e; simpl; lia. Qed.

Lemma weight_pos n r : 1 ≤ weight n r.
Proof. destruct r; simpl; lia. Qed.

Lemma cost_app n events events' :
  cost n (events ++ events') = cost n events + cost n events'.
Proof. apply sum_list_with_app. Qed.

(** The follow-ups of one event cost less than the event. *)
Lemma cost_follow_ups n e events :
  Forall (λ e', rank e = S (rank e')) events → length events ≤ n →
  cost n events < weight n (rank e).
Proof.
  intros Hrk Hlen. destruct (rank e) as [|r] eqn:Hr.
  - destruct Hrk as [|e' ? Habs]; [simpl; lia|done].
  - assert (cost n events = length events * weight n r) as ->.
    { clear Hlen. unfold cost.
      induction Hrk as [|e' l Heq _ IH]; simpl; [done|].
      rewrite IH. injection Heq as ->. lia. }
    simpl. pose proof (weight_pos n r). nia.
Qed.

Lemma publish_cost st e events st' events' cs :
  publish st e events = (st', events', cs) →
  fan st' = fan st ∧ cost (fan st) events' < cost (fan st) (e :: events).
Proof.
  intros (Hsub & -> & Hset & _ & Hrk)%publish_spec.
  split; [by apply fan_subscribers|].
  rewrite cost_app. unfold cost at 3. simpl. fold (cost (fan st) events).
  enough (cost (fan st) (follow_ups cs) < weight (fan st) (rank e)) by lia.
  apply cost_follow_ups; [done|].
  etrans; [|apply (fan_bound st e)]. rewrite <- Hset, length_fmap.
  apply follow_ups_length.
Qed.

(** The loop always ends: fuel above the cost of the pending events is
    enough. *)
Lemma drain_enough_fuel fuel st events :
  cost (fan st) events ≤ fuel → is_Some (drain fuel st events).
Proof.
  revert st events. induction fuel as [|fuel IH]; intros st events Hc.
  - destruct events as [|e events]; simpl; [done|].
    unfold cost in Hc. simpl in Hc.
    pose proof (weight_pos (fan st) (rank e)). lia.
  - destruct events as [|e events]; simpl; [done|].
    destruct (publish st e events) as [[st' events'] cs] eqn:Hp.
    apply publish_cost in Hp as [Hfan Hlt].
    destruct (IH st' events') as [r ->]; [rewrite Hfan; lia|]. done.
Qed.

(** More fuel does not change the run. *)
Lemma drain_fuel_mono fuel fuel' st events r :
  drain fuel st events = Some r → fuel ≤ fuel' →
  drain fuel' st events = Some r.
Proof.
  revert fuel' st events r.
  induction fuel as [|fuel IH]; intros fuel' st events r.
  - destruct events; [|done]. simpl. intros [= <-] _. by destruct fuel'.
  - destruct events as [|e events]; simpl.
    { intros [= <-] _. by destruct fuel'. }
    destruct (publish st e events) as [[st' events'] cs] eqn:Hp.
    destruct (drain fuel st' events') as [r'|] eqn:Hd; [|done].
    intros [= <-] Hle. destruct fuel' as [|fuel']; [lia|]. simpl.
    rewrite Hp. by rewrite (IH fuel' _ _ r') by (done || lia).
Qed.

Lemma drain_deterministic fuel fuel' st events r r' :
  drain fuel st events = Some r → drain fuel' st events = Some r' → r = r'.
Proof.
  intros H1 H2.
  apply (drain_fuel_mono _ (fuel `max` fuel')) in H1; [|lia].
  apply (drain_fuel_mono _ (fuel `max` fuel')) in H2; [|lia]. congruence.
Qed.

(** Invariant of the loop: what was delivered so far followed by what is
    pending is the seed followed by what was pushed so far.  At the end
    nothing is pending. *)
Lemma drain_delivered fuel st events r :
  drain fuel st events = Some r →
  delivered r = events ++ follow_ups (calls r).
Proof.
  revert st events r. induction fuel as [|fuel IH]; intros st events r.
  - destruct events; [|done]. by intros [= <-].
  - destruct events as [|e events]; simpl; [by intros [= <-]|].
    destruct (publish st e events) as [[st' events'] cs] eqn:Hp.
    destruct (drain fuel st' events') as [r'|] eqn:Hd; [|done].
    intros [= <-]. simpl. apply IH in Hd as ->.
    apply publish_spec in Hp as (_ & -> & _).
    unfold follow_ups. by rewrite omap_app, <- app_assoc.
Qed.

Lemma drain_subscribers fuel st events r :
  drain fuel st events = Some r → subscribers (final r) = subscribers st.
Proof.
  revert st events r. induction fuel as [|fuel IH]; intros st events r.
  - destruct events; [|done]. by intros [= <-].
  - destruct events as [|e events]; simpl; [by intros [= <-]|].
    destruct (publish st e events) as [[st' events'] cs] eqn:Hp.
    destruct (drain fuel st' events') as [r'|] eqn:Hd; [|done].
    intros [= <-]. simpl. apply IH in Hd as ->.
    by apply publish_spec in Hp as (-> & _).
Qed.
End QueuedBus.

(** ** The bus of [src/app.ts] *)

Section RecursiveBus.
Import Recursive.
Implicit Types (st : State Subscriber) (ms : list Machine).
Implicit Types (e event : Event) (set : list Subscriber) (cs : list Call).
Implicit Types (f : State Subscriber → Event → Result).

Lemma recursive_handle_rank s e ms ms' e' :
  handle s e ms = Normal ms' (Some e') → rank e = 1 ∧ rank e' = 0.
Proof.
  intros [Hs He']%recursive_handle_follow_up.
  split; [by destruct s, e|]. by destruct He' as [-> | ->].
Qed.

Lemma on_completion_add_calls (P Q : State Subscriber → list Call → Prop)
    cs0 r :
  (∀ st cs, P st cs → Q st (cs0 ++ cs)) →
  on_completion P r → on_completion Q (add_calls cs0 r).
Proof. intros HPQ. destruct r; simpl; auto. Qed.

(** *** The registry is not written *)

Lemma forEach_subscribers f set e st :
  (∀ st1 e1,
     on_completion (λ st' _, subscribers st' = subscribers st1) (f st1 e1)) →
  on_completion (λ st' _, subscribers st' = subscribers st)
    (forEach f set e st).
Proof.
  intros Hf. revert st. induction set as [|s set IH]; intros st; simpl.
  { done. }
  destruct (handle s e (machines st)) as [ms [e'|]|]; simpl; [| |done].
  - pose proof (Hf (with_machines st ms) e') as Hp.
    destruct (f (with_machines st ms) e') as [st1 cs1|st1 cs1|];
      simpl in *; [|done..].
    eapply on_completion_add_calls; [|apply IH]. simpl. congruence.
  - eapply on_completion_add_calls; [|apply IH]. simpl. congruence.
Qed.

Lemma publish_subscribers fuel st e :
  on_completion (λ st' _, subscribers st' = subscribers st)
    (publish fuel st e).
Proof.
  revert st e. induction fuel as [|fuel IH]; intros st e; simpl; [done|].
  destruct (subscribers st !! type e); [|done].
  by apply forEach_subscribers.
Qed.

(** *** The recursion is two deep at most *)

Lemma add_calls_fuel cs r : add_calls cs r = OutOfFuel → r = OutOfFuel.
Proof. by destruct r. Qed.

Lemma forEach_total f set e st :
  (∀ st1 e1, rank e1 = 0 → f st1 e1 ≠ OutOfFuel) →
  forEach f set e st ≠ OutOfFuel.
Proof.
  intros Hf. revert st. induction set as [|s set IH]; intros st; simpl.
  { done. }
  destruct (handle s e (machines st)) as [ms [e'|]|] eqn:Hh; [| |done].
  - apply recursive_handle_rank in Hh as [_ He'].
    specialize (Hf (with_machines st ms) e' He').
    destruct (f (with_machines st ms) e') as [st1 cs1|st1 cs1|];
      [|done..].
    intros Habs%add_calls_fuel. by eapply IH.
  - intros Habs%add_calls_fuel. by eapply IH.
Qed.

Lemma publish_leaf_total fuel st e :
  rank e = 0 → publish (S fuel) st e ≠ OutOfFuel.
Proof.
  intros He. simpl. destruct (subscribers st !! type e) as [set|]; [|done].
  clear -He. revert st. induction set as [|s set IH]; intros st; simpl.
  { done. }
  destruct (handle s e (machines st)) as [ms [e'|]|] eqn:Hh; [| |done].
  - apply recursive_handle_rank in Hh as [Hr _]. congruence.
  - intros Habs%add_calls_fuel. by eapply IH.
Qed.

Lemma publish_total fuel st e : publish (S (S fuel)) st e ≠ OutOfFuel.
Proof.
  cbn [publish]. destruct (subscribers st !! type e) as [set|]; [|done].
  apply forEach_total. intros st1 e1 He1.
  by apply (publish_leaf_total fuel).
Qed.

(** *** Deliveries *)

(** A warning or a stock-ok notice is answered by no handler, so its
    publication calls handlers with that event only. *)
Lemma forEach_leaf_calls f set e st :
  rank e = 0 →
  on_completion (λ _ cs, Forall (λ c, c.2 = e) cs) (forEach f set e st).
Proof.
  intros He. revert st. induction set as [|s set IH]; intros st; simpl.
  { done. }
  destruct (handle s e (machines st)) as [ms [e'|]|] eqn:Hh; simpl.
  - apply recursive_handle_rank in Hh as [Hr _]. congruence.
  - eapply on_completion_add_calls; [|apply IH]. simpl.
    intros _ cs Hcs. by constructor.
  - by constructor.
Qed.

Lemma publish_leaf_calls fuel st e :
  rank e = 0 →
  on_completion (λ _ cs, Forall (λ c, c.2 = e) cs) (publish fuel st e).
Proof.
  intros He. destruct fuel as [|fuel]; simpl; [done|].
  destruct (subscribers st !! type e); [|by apply Forall_nil].
  by apply forEach_leaf_calls.
Qed.

Lemma deliveries_app s e cs cs' :
  deliveries s e (cs ++ cs') = deliveries s e cs + deliveries s e cs'.
Proof. unfold deliveries. by rewrite filter_app, length_app. Qed.

Lemma deliveries_other s e e1 cs :
  e1 ≠ e → Forall (λ c, c.2 = e1) cs → deliveries s e cs = 0.
Proof.
  intros Hne Hcs. unfold deliveries.
  induction Hcs as [|[s' e'] cs Hc _ IH]; [done|].
  rewrite filter_cons, decide_False; [done|].
  simpl in Hc. congruence.
Qed.

Lemma deliveries_cons s e s' cs :
  deliveries s e ((s', e) :: cs)
  = length (filter (λ x, x = s) [s']) + deliveries s e cs.
Proof.
  unfold deliveries. rewrite filter_cons, filter_cons, filter_nil.
  destruct (decide (s' = s)) as [->|Hne].
  - by rewrite decide_True.
  - rewrite decide_False; [done|]. congruence.
Qed.

(** The fan-out hands the event to each member of the set once if it
    returns, and to a prefix of the set if a handler throws. *)
Lemma forEach_deliveries f set e st s :
  (∀ st1 e1, rank e1 = 0 →
     on_completion (λ _ cs, Forall (λ c, c.2 = e1) cs) (f st1 e1)) →
  match forEach f set e st with
  | Returned _ cs =>
      deliveries s e cs = length (filter (λ x, x = s) set)
  | Threw _ cs =>
      deliveries s e cs ≤ length (filter (λ x, x = s) set)
  | OutOfFuel => True
  end.
Proof.
  intros Hf. revert st. induction set as [|s' set IH]; intros st; simpl.
  { done. }
  rewrite filter_cons.
  assert (∀ n, length (filter (λ x, x = s) [s']) + n
               = length (if decide (s' = s)
                         then s' :: filter (λ x, x = s) set
                         else filter (λ x, x = s) set)
               ↔ n = length (filter (λ x, x = s) set)) as Hlen.
  { intros n. rewrite filter_cons, filter_nil.
    case_decide; simpl; lia. }
  assert (∀ n, n ≤ length (filter (λ x, x = s) set) →
               length (filter (λ x, x = s) [s']) + n
               ≤ length (if decide (s' = s)
                         then s' :: filter (λ x, x = s) set
                         else filter (λ x, x = s) set)) as Hle.
  { intros n. rewrite filter_cons, filter_nil.
    case_decide; simpl; lia. }
  destruct (handle s' e (machines st)) as [ms [e'|]|] eqn:Hh.
  - apply recursive_handle_rank in Hh as [Hr He'].
    specialize (Hf (with_machines st ms) e' He').
    assert (e' ≠ e) as Hne by congruence.
    destruct (f (with_machines st ms) e') as [st1 cs1|st1 cs1|];
      simpl in Hf; [| |done].
    + specialize (IH st1).
      destruct (forEach f set e st1) as [st2 cs2|st2 cs2|]; simpl; [| |done].
      * rewrite deliveries_cons, deliveries_app,
          (deliveries_other _ _ e' cs1) by done.
        by apply Hlen.
      * rewrite deliveries_cons, deliveries_app,
          (deliveries_other _ _ e' cs1) by done.
        by apply Hle.
    + rewrite deliveries_cons, (deliveries_other _ _ e' cs1) by done.
      apply Hle. lia.
  - specialize (IH (with_machines st ms)).
    destruct (forEach f set e _) as [st2 cs2|st2 cs2|]; simpl; [| |done].
    + rewrite deliveries_cons. by apply Hlen.
    + rewrite deliveries_cons. by apply Hle.
  - rewrite deliveries_cons. apply Hle. unfold deliveries. simpl. lia.
Qed.

Lemma publish_deliveries fuel st e s set :
  subscribers st !! type e = Some set →
  match publish (S fuel) st e with
  | Returned _ cs =>
      deliveries s e cs = length (filter (λ x, x = s) set)
  | Threw _ cs =>
      deliveries s e cs ≤ length (filter (λ x, x = s) set)
  | OutOfFuel => True
  end.
Proof.
  intros Hset. simpl. rewrite Hset. apply forEach_deliveries.
  intros st1 e1 He1. by apply publish_leaf_calls.
Qed.
End RecursiveBus.

(** ** Events that target no machine *)

Section UnknownMachine.
Implicit Types (ms : list Machine) (e : Event).

Lemma queued_forEach_not_found set e ms events :
  find ms (machineId e) = None →
  Queued.forEach set e ms events
  = (ms, events, (λ s, (s, e, None)) <$> set).
Proof.
  intros Hf. induction set as [|s set IH]; simpl; [done|].
  by rewrite handle_not_found, IH.
Qed.

Lemma queued_publish_not_found (st : State Queued.Subscriber) e events :
  find (machines st) (machineId e) = None →
  Queued.publish st e events
  = (st, events,
     (λ s, (s, e, None)) <$> default [] (subscribers st !! type e)).
Proof.
  intros Hf. unfold Queued.publish.
  destruct (subscribers st !! type e) as [set|]; simpl; [|done].
  rewrite queued_forEach_not_found by done. by destruct st.
Qed.

Lemma recursive_forEach_not_found f set e (st : State Recursive.Subscriber) :
  find (machines st) (machineId e) = None →
  Recursive.forEach f set e st = Recursive.Returned st ((λ s, (s, e)) <$> set).
Proof.
  intros Hf. induction set as [|s set IH]; simpl; [done|].
  rewrite recursive_handle_not_found by done.
  replace (Recursive.with_machines st (machines st)) with st
    by by destruct st.
  by rewrite IH.
Qed.

Lemma recursive_publish_not_found fuel (st : State Recursive.Subscriber) e :
  find (machines st) (machineId e) = None →
  Recursive.publish (S fuel) st e
  = Recursive.Returned st
      ((λ s, (s, e)) <$> default [] (subscribers st !! type e)).
Proof.
  intros Hf. simpl.
  destruct (subscribers st !! type e) as [set|]; simpl; [|done].
  by apply recursive_forEach_not_found.
Qed.
End UnknownMachine.

(** ** The run of the driver's registrations on one sale *)

Section Cascade.
Import Queued.
Implicit Types (st : State Subscriber) (ms : list Machine).

(** [publish] when one subscriber is registered for the event's type. *)
Lemma publish_single st s e events :
  subscribers st !! type e = Some [s] →
  publish st e events =
  ({| subscribers := subscribers st;
      machines := (handle s e (machines st)).1 |},
   events ++ option_list (handle s e (machines st)).2,
   [(s, e, (handle s e (machines st)).2)]).
Proof.
  intros Hs. unfold publish. rewrite Hs. simpl.
  destruct (handle s e (machines st)) as [ms' [e'|]]; simpl; [done|].
  by rewrite app_nil_r.
Qed.

Lemma driver_service_lookup ms :
  subscribers (driver_service ms) !! "sale" = Some [saleSubscriber]
  ∧ subscribers (driver_service ms) !! "refill" = Some [refilSubscriber]
  ∧ subscribers (driver_service ms) !! "LowStock"
    = Some [stockWarningSubscriber]
  ∧ subscribers (driver_service ms) !! "StockLevelOk"
    = Some [stockLevelOkSubscriber].
Proof. split_and!; vm_compute; reflexivity. Qed.

Lemma driver_service_machines ms : machines (driver_service ms) = ms.
Proof. done. Qed.
End Cascade.

Section CascadeRun.
Import Queued.
Local Open Scope Z_scope.

Lemma drain_nil (fuel : nat) st :
  drain fuel st [] = Some {| final := st; delivered := []; calls := [] |}.
Proof. by destruct fuel. Qed.

(** One iteration of the loop when one subscriber is registered for the
    type of the event at the front. *)
Lemma drain_step_single (fuel : nat) st s e rest ms' newEvent :
  subscribers st !! type e = Some [s] →
  handle s e (machines st) = (ms', newEvent) →
  drain (S fuel) st (e :: rest) =
  match
    drain fuel {| subscribers := subscribers st; machines := ms' |}
      (rest ++ option_list newEvent)
  with
  | Some r => Some {| final := final r;
                      delivered := e :: delivered r;
                      calls := (s, e, newEvent) :: calls r |}
  | None => None
  end.
Proof.
  intros Hs Hh. cbn [drain]. rewrite (publish_single _ s) by done.
  by rewrite Hh.
Qed.

Lemma cascade_found ms mid i m (fuel : nat) :
  find ms mid = Some (i, m) → stockLevel m = 3 → (4 ≤ fuel)%nat →
  drain fuel (driver_service ms) [MachineSaleEvent 2 mid]
  = Some {|
      final := driver_service ms;
      delivered :=
        [MachineSaleEvent 2 mid; LowStockWarningEvent mid;
         MachineRefillEvent 2 mid; StockLevelOkEvent mid];
      calls :=
        [(saleSubscriber, MachineSaleEvent 2 mid,
          Some (LowStockWarningEvent mid));
         (stockWarningSubscriber, LowStockWarningEvent mid,
          Some (MachineRefillEvent 2 mid));
         (refilSubscriber, MachineRefillEvent 2 mid,
          Some (StockLevelOkEvent mid));
         (stockLevelOkSubscriber, StockLevelOkEvent mid, None)] |}.
Proof.
  intros Hf Hm Hfuel.
  destruct (driver_service_lookup ms) as (Hsale & Hrefill & Hlow & Hok).
  do 4 (destruct fuel as [|fuel]; [lia|]). clear Hfuel.
  pose proof (find_set_stockLevel_same _ _ _ _ 1 Hf) as Hf1.
  pose proof (find_Some_inv _ _ _ _ Hf) as [Hi Hid].
  (* the sale: 3 - 2 = 1, a downward crossing *)
  erewrite (drain_step_single _ _ saleSubscriber); [|exact Hsale|];
    [|rewrite driver_service_machines; apply (sale_found _ _ _ _ _ _ Hf)].
  rewrite Hm, decide_True by lia. simpl option_list. simpl app.
  change (3 - 2) with 1.
  (* the warning: a refill of 3 - 1 = 2 *)
  erewrite (drain_step_single _ _ stockWarningSubscriber);
    [|exact Hlow|apply (warning_found _ _ _ _ _ Hf1)].
  simpl option_list. simpl app. simpl stockLevel. change (3 - 1) with 2.
  (* the refill: 1 + 2 = 3, an upward crossing *)
  erewrite (drain_step_single _ _ refilSubscriber);
    [|exact Hrefill|apply (refill_found _ _ _ _ _ _ Hf1)].
  simpl stockLevel. rewrite decide_True by lia.
  simpl option_list. simpl app. change (1 + 2) with 3.
  rewrite set_stockLevel_twice, <- Hm, (set_stockLevel_id _ _ _ Hi).
  (* the stock-ok notice: no follow-up *)
  erewrite (drain_step_single _ _ stockLevelOkSubscriber);
    [|exact Hok|]; [|simpl; by rewrite Hf].
  simpl app. rewrite drain_nil. reflexivity.
Qed.
End CascadeRun.

(** ** The scenarios of the specification, on the queued bus *)

Section Scenarios.
Import Queued.
Local Open Scope Z_scope.

Lemma driver_service_wf ms : registry_wf (driver_service ms).
Proof. do 4 apply subscribe_wf. apply new_service_wf. Qed.

(** Stock 3, Sale(1): stock 2 and one warning. *)
Example scenario_crossing_down :
  publish (driver_service [{| id := "001"; stockLevel := 3 |}])
    (MachineSaleEvent 1 "001") []
  = (driver_service [{| id := "001"; stockLevel := 2 |}],
     [LowStockWarningEvent "001"],
     [(saleSubscriber, MachineSaleEvent 1 "001",
       Some (LowStockWarningEvent "001"))]).
Proof. reflexivity. Qed.

(** Stock 2, Sale(1): stock 1 and no warning. *)
Example scenario_no_second_warning :
  publish (driver_service [{| id := "001"; stockLevel := 2 |}])
    (MachineSaleEvent 1 "001") []
  = (driver_service [{| id := "001"; stockLevel := 1 |}], [],
     [(saleSubscriber, MachineSaleEvent 1 "001", None)]).
Proof. reflexivity. Qed.

(** Stock 2, Refill(3): stock 5 and one stock-ok notice. *)
Example scenario_crossing_up :
  publish (driver_service [{| id := "001"; stockLevel := 2 |}])
    (MachineRefillEvent 3 "001") []
  = (driver_service [{| id := "001"; stockLevel := 5 |}],
     [StockLevelOkEvent "001"],
     [(refilSubscriber, MachineRefillEvent 3 "001",
       Some (StockLevelOkEvent "001"))]).
Proof. reflexivity. Qed.

(** After [unsubscribe("sale", saleSubscriber)] a Sale reaches nobody. *)
Example scenario_unsubscribed :
  publish
    (unsubscribe "sale" saleSubscriber
       (driver_service [{| id := "001"; stockLevel := 3 |}]))
    (MachineSaleEvent 1 "001") []
  = (unsubscribe "sale" saleSubscriber
       (driver_service [{| id := "001"; stockLevel := 3 |}]), [], []).
Proof. reflexivity. Qed.

(** Two sale subscribers: two decrements, and the one that crosses the
    threshold warns. *)
Example scenario_two_sale_subscribers :
  publish
    (subscribe "sale" (MachineSaleSubscriber 7)
       (driver_service [{| id := "001"; stockLevel := 4 |}]))
    (MachineSaleEvent 1 "001") []
  = (subscribe "sale" (MachineSaleSubscriber 7)
       (driver_service [{| id := "001"; stockLevel := 2 |}]),
     [LowStockWarningEvent "001"],
     [(saleSubscriber, MachineSaleEvent 1 "001", None);
      (MachineSaleSubscriber 7, MachineSaleEvent 1 "001",
       Some (LowStockWarningEvent "001"))]).
Proof. reflexivity. Qed.
End Scenarios.

(** ** The trace of the queued bus against [handle] *)

Section QueuedTrace.
Import Queued QueuedRun.
Implicit Types (st : State Subscriber) (ms : list Machine).
Implicit Types (e event : Event) (events : list Event).
Implicit Types (set : list Subscriber) (cs : list Call).

Lemma replay_app ms cs cs' :
  replay ms (cs ++ cs') = replay (replay ms cs) cs'.
Proof. apply foldl_app. Qed.

Lemma sound_app ms cs cs' :
  sound ms cs → sound (replay ms cs) cs' → sound ms (cs ++ cs').
Proof.
  revert ms. induction cs as [|[[s e] o] cs IH]; intros ms; simpl; [done|].
  intros [Ho Hs] Hs'. split; [done|]. by apply IH.
Qed.

Lemma pairs_app cs cs' : pairs (cs ++ cs') = pairs cs ++ pairs cs'.
Proof. apply fmap_app. Qed.

Lemma set_of_subscribers st st' e :
  subscribers st' = subscribers st → set_of st' e = set_of st e.
Proof. unfold set_of. by intros ->. Qed.

Lemma forEach_trace set e ms events ms' events' cs :
  forEach set e ms events = (ms', events', cs) →
  pairs cs = (λ s, (s, e)) <$> set ∧ sound ms cs ∧ ms' = replay ms cs.
Proof.
  revert ms events ms' events' cs.
  induction set as [|s set IH]; intros ms events ms' events' cs; simpl.
  - by intros [= <- <- <-].
  - destruct (handle s e ms) as [ms1 newEvent] eqn:Hh.
    destruct (forEach set e ms1 _) as [[ms2 events2] cs2] eqn:Hfe.
    intros [= <- <- <-]. apply IH in Hfe as (Hp & Hs & ->).
    unfold pairs, replay in *. simpl. rewrite Hh. simpl.
    split_and!; [|done..]. f_equal. exact Hp.
Qed.

Lemma publish_trace st e events st' events' cs :
  publish st e events = (st', events', cs) →
  pairs cs = (λ s, (s, e)) <$> set_of st e
  ∧ sound (machines st) cs
  ∧ machines st' = replay (machines st) cs.
Proof.
  unfold publish, set_of.
  destruct (subscribers st !! type e) as [set|]; simpl.
  - destruct (forEach set e _ events) as [[ms1 events1] cs1] eqn:Hfe.
    intros [= <- <- <-]. simpl. by apply forEach_trace in Hfe.
  - by intros [= <- <- <-].
Qed.

Lemma drain_trace fuel st events r :
  drain fuel st events = Some r →
  pairs (calls r)
  = delivered r ≫= (λ e, (λ s, (s, e)) <$> set_of st e)
  ∧ sound (machines st) (calls r)
  ∧ machines (final r) = replay (machines st) (calls r).
Proof.
  revert st events r. induction fuel as [|fuel IH]; intros st events r.
  - destruct events; [|done]. by intros [= <-].
  - destruct events as [|e events]; simpl; [by intros [= <-]|].
    destruct (publish st e events) as [[st' events'] cs] eqn:Hp.
    destruct (drain fuel st' events') as [r'|] eqn:Hd; [|done].
    intros [= <-]. simpl. apply IH in Hd as (Hpr & Hs & Hm).
    pose proof (publish_trace _ _ _ _ _ _ Hp) as (Hpc & Hsc & Hmc).
    apply publish_spec in Hp as (Hsub & _).
    rewrite Hmc in Hs, Hm. split_and!.
    + rewrite pairs_app, Hpc, Hpr. f_equal.
      apply list_bind_ext; [|done]. intros e0.
      by rewrite (set_of_subscribers st st').
    + by apply sound_app.
    + by rewrite replay_app.
Qed.
End QueuedTrace.

(** * The specification, claim by claim *)

Section Specification.
Local Open Scope Z_scope.

(** Claim C1: a Sale on a registered machine takes the quantity off its
    stock and returns a LowStockWarning exactly when the stock was at
    least 3 before and is below 3 after; a Sale on a stock already below 3
    returns no warning.

    [src/unnamed/part_000] does this ([queued_sale_crossing]).
    [src/app.ts] tests the new level only: with machine "001" at stock 2,
    a Sale of 1 leaves stock 1 and returns a LowStockWarning, where
    [part_000] returns nothing. *)
Theorem app_sale_warns_below_threshold :
  Recursive.handle (Recursive.MachineSaleSubscriber 0)
    (MachineSaleEvent 1 "001") [{| id := "001"; stockLevel := 2 |}]
  = Recursive.Normal [{| id := "001"; stockLevel := 1 |}]
      (Some (LowStockWarningEvent "001"))
  ∧ Queued.handle (Queued.MachineSaleSubscriber 0)
      (MachineSaleEvent 1 "001") [{| id := "001"; stockLevel := 2 |}]
    = ([{| id := "001"; stockLevel := 1 |}], None).
Proof. split; reflexivity. Qed.

(** Claim C2: a Refill on a registered machine adds the quantity to its
    stock and returns a StockLevelOk exactly when the stock was below 3
    before and is at least 3 after; a Refill on a stock already at 3 or
    more returns none.

    [src/unnamed/part_000] does this ([queued_refill_crossing]).
    [src/app.ts] tests the new level only: with machine "001" at its
    initial stock 10, a Refill of 3 leaves stock 13 and returns a
    StockLevelOk, where [part_000] returns nothing. *)
Theorem app_refill_notifies_above_threshold :
  Recursive.handle (Recursive.MachineRefillSubscriber 0)
    (MachineRefillEvent 3 "001") [{| id := "001"; stockLevel := 10 |}]
  = Recursive.Normal [{| id := "001"; stockLevel := 13 |}]
      (Some (StockLevelOkEvent "001"))
  ∧ Queued.handle (Queued.MachineRefillSubscriber 0)
      (MachineRefillEvent 3 "001") [{| id := "001"; stockLevel := 10 |}]
    = ([{| id := "001"; stockLevel := 13 |}], None).
Proof. split; reflexivity. Qed.

(** Claim C3: with the four subscribers registered as the driver does, a
    registry holding a machine with stock 3, and the single seed event
    Sale(2) for it, the drain loop ends after four iterations; it has
    delivered Sale, LowStockWarning, Refill(2), StockLevelOk in that
    order, the last call returned no follow-up, and the machine's stock
    is 3 again (every machine is as it was). *)
Theorem cascade_resolution (ms : list Machine) (i : nat) (m : Machine)
    (fuel : nat) :
  NoDup (id <$> ms) → ms !! i = Some m → stockLevel m = 3 →
  (4 ≤ fuel)%nat →
  ∃ r,
    Queued.drain fuel (Queued.driver_service ms) [MachineSaleEvent 2 (id m)]
      = Some r
    ∧ Queued.delivered r
      = [MachineSaleEvent 2 (id m); LowStockWarningEvent (id m);
         MachineRefillEvent 2 (id m); StockLevelOkEvent (id m)]
    ∧ Queued.calls r
      = [(Queued.saleSubscriber, MachineSaleEvent 2 (id m),
          Some (LowStockWarningEvent (id m)));
         (Queued.stockWarningSubscriber, LowStockWarningEvent (id m),
          Some (MachineRefillEvent 2 (id m)));
         (Queued.refilSubscriber, MachineRefillEvent 2 (id m),
          Some (StockLevelOkEvent (id m)));
         (Queued.stockLevelOkSubscriber, StockLevelOkEvent (id m), None)]
    ∧ stock_of (machines (Queued.final r)) (id m) = Some 3
    ∧ machines (Queued.final r) = ms.
Proof.
  intros Hnd Hi Hm Hfuel.
  pose proof (find_registered _ _ _ Hnd Hi) as Hf.
  eexists. split; [by apply (cascade_found ms (id m) i m)|]. simpl.
  split_and!; try done. by rewrite (stock_of_found _ _ _ _ Hf), Hm.
Qed.

Lemma cascade_resolution_witness :
  ∃ r,
    Queued.drain 4
      (Queued.driver_service
         [{| id := "001"; stockLevel := 3 |};
          {| id := "002"; stockLevel := 3 |}])
      [MachineSaleEvent 2 "002"] = Some r
    ∧ Queued.delivered r
      = [MachineSaleEvent 2 "002"; LowStockWarningEvent "002";
         MachineRefillEvent 2 "002"; StockLevelOkEvent "002"]
    ∧ Queued.calls r
      = [(Queued.saleSubscriber, MachineSaleEvent 2 "002",
          Some (LowStockWarningEvent "002"));
         (Queued.stockWarningSubscriber, LowStockWarningEvent "002",
          Some (MachineRefillEvent 2 "002"));
         (Queued.refilSubscriber, MachineRefillEvent 2 "002",
          Some (StockLevelOkEvent "002"));
         (Queued.stockLevelOkSubscriber, StockLevelOkEvent "002", None)]
    ∧ stock_of
        (machines (Queued.final r)) "002" = Some 3
    ∧ machines (Queued.final r)
      = [{| id := "001"; stockLevel := 3 |};
         {| id := "002"; stockLevel := 3 |}].
Proof.
  apply (cascade_resolution
           [{| id := "001"; stockLevel := 3 |};
            {| id := "002"; stockLevel := 3 |}]
           1 {| id := "002"; stockLevel := 3 |} 4).
  - apply (bool_decide_unpack _). vm_compute. exact I.
  - reflexivity.
  - reflexivity.
  - lia.
Defined.

(** Claim C4: for a registered machine, the LowStockWarning subscriber
    answers a warning for it with a Refill for that machine whose quantity
    is 3 minus the machine's current stock, and writes to no machine.  The
    stock and the difference are integers within the range where the
    subtraction of JS numbers is exact. *)
Theorem warning_refills_to_threshold (ref : nat) (ms : list Machine)
    (i : nat) (m : Machine) :
  NoDup (id <$> ms) → ms !! i = Some m →
  exact_integer (stockLevel m) → exact_integer (3 - stockLevel m) →
  Queued.handle (Queued.StockwarningSubscriber ref)
    (LowStockWarningEvent (id m)) ms
  = (ms, Some (MachineRefillEvent (3 - stockLevel m) (id m))).
Proof.
  intros Hnd Hi _ _. eapply warning_found, find_registered; done.
Qed.

Lemma warning_refills_to_threshold_witness :
  Queued.handle (Queued.StockwarningSubscriber 2)
    (LowStockWarningEvent "003")
    [{| id := "001"; stockLevel := 3 |};
     {| id := "003"; stockLevel := -1 |}]
  = ([{| id := "001"; stockLevel := 3 |};
      {| id := "003"; stockLevel := -1 |}],
     Some (MachineRefillEvent 4 "003")).
Proof.
  apply (warning_refills_to_threshold 2
           [{| id := "001"; stockLevel := 3 |};
            {| id := "003"; stockLevel := -1 |}]
           1 {| id := "003"; stockLevel := -1 |}).
  - apply (bool_decide_unpack _). vm_compute. exact I.
  - reflexivity.
  - unfold exact_integer, MAX_EXACT. simpl. lia.
  - unfold exact_integer, MAX_EXACT. simpl. lia.
Defined.

(** Claim C5: a subscriber handed an event of another class does nothing:
    no stock changes and no follow-up is returned.

    [src/unnamed/part_000] does this ([handle_other_class]).  The handlers
    of [src/app.ts] have no test on the class: the Sale subscriber handed
    a Refill for the registered machine "001" calls [getSoldQuantity],
    which a Refill event lacks, and throws (also when the event reaches
    it through [publish]), where [part_000] returns nothing. *)
Theorem app_handler_throws_on_other_class :
  Recursive.handle (Recursive.MachineSaleSubscriber 0)
    (MachineRefillEvent 3 "001") [{| id := "001"; stockLevel := 10 |}]
  = Recursive.TypeError
  ∧ Recursive.publish 2
      (subscribe "refill" (Recursive.MachineSaleSubscriber 0)
         (new_service [{| id := "001"; stockLevel := 10 |}]))
      (MachineRefillEvent 3 "001")
    = Recursive.Threw
        (subscribe "refill" (Recursive.MachineSaleSubscriber 0)
           (new_service [{| id := "001"; stockLevel := 10 |}]))
        [(Recursive.MachineSaleSubscriber 0, MachineRefillEvent 3 "001")]
  ∧ Queued.handle (Queued.MachineSaleSubscriber 0)
      (MachineRefillEvent 3 "001") [{| id := "001"; stockLevel := 10 |}]
    = ([{| id := "001"; stockLevel := 10 |}], None).
Proof. split_and!; reflexivity. Qed.

(** Claim C7: a Sale or a Refill whose machine id matches no machine of
    the registry is a no-op for every subscriber, in both files: the
    machines are returned as they were, nothing is thrown and no follow-up
    is returned; published through the bus it leaves the state and the
    pending events as they were. *)
Theorem unknown_machine_noop (ms : list Machine) (mid : string) (q : Z)
    (e : Event) :
  (∀ m, m ∈ ms → id m ≠ mid) →
  e = MachineSaleEvent q mid ∨ e = MachineRefillEvent q mid →
  (∀ s, Queued.handle s e ms = (ms, None))
  ∧ (∀ s, Recursive.handle s e ms = Recursive.Normal ms None)
  ∧ (∀ st events, machines st = ms →
       ∃ cs, Queued.publish st e events = (st, events, cs)
             ∧ Queued.follow_ups cs = [])
  ∧ (∀ st fuel, machines st = ms →
       ∃ cs, Recursive.publish (S fuel) st e = Recursive.Returned st cs).
Proof.
  intros Hno He.
  assert (find ms (machineId e) = None) as Hf.
  { apply find_None_iff. by destruct He as [-> | ->]. }
  split_and!.
  - intros s. by apply handle_not_found.
  - intros s. by apply recursive_handle_not_found.
  - intros st events <-. eexists. split.
    + by apply queued_publish_not_found.
    + unfold Queued.follow_ups.
      by induction (default [] (subscribers st !! type e)).
  - intros st fuel <-. eexists. by apply recursive_publish_not_found.
Qed.

Lemma unknown_machine_noop_witness :
  (∀ s, Queued.handle s (MachineSaleEvent 1 "999")
          [{| id := "001"; stockLevel := 3 |}]
        = ([{| id := "001"; stockLevel := 3 |}], None))
  ∧ (∀ s, Recursive.handle s (MachineSaleEvent 1 "999")
            [{| id := "001"; stockLevel := 3 |}]
          = Recursive.Normal [{| id := "001"; stockLevel := 3 |}] None)
  ∧ (∀ st events, machines st = [{| id := "001"; stockLevel := 3 |}] →
       ∃ cs, Queued.publish st (MachineSaleEvent 1 "999") events
             = (st, events, cs)
             ∧ Queued.follow_ups cs = [])
  ∧ (∀ st fuel, machines st = [{| id := "001"; stockLevel := 3 |}] →
       ∃ cs, Recursive.publish (S fuel) st (MachineSaleEvent 1 "999")
             = Recursive.Returned st cs).
Proof.
  apply (unknown_machine_noop [{| id := "001"; stockLevel := 3 |}]
           "999" 1 (MachineSaleEvent 1 "999")).
  - apply find_None_iff. reflexivity.
  - left. reflexivity.
Defined.

(** Claim C8: publishing an event whose type has no entry in the registry
    is a silent no-op in both files: no handler is called, the state is
    as it was, nothing is thrown, and nothing is pushed (queued bus) or
    re-published (recursive bus). *)
Theorem publish_without_entry (e : Event) :
  (∀ (st : State Queued.Subscriber) events,
     subscribers st !! type e = None →
     Queued.publish st e events = (st, events, []))
  ∧ (∀ (st : State Recursive.Subscriber) fuel,
       subscribers st !! type e = None →
       Recursive.publish (S fuel) st e = Recursive.Returned st []).
Proof.
  split.
  - intros st events Hnone. unfold Queued.publish. by rewrite Hnone.
  - intros st fuel Hnone. simpl. by rewrite Hnone.
Qed.

Lemma publish_without_entry_witness :
  Queued.publish
    (subscribe "sale" Queued.saleSubscriber
       (new_service [{| id := "001"; stockLevel := 3 |}]))
    (MachineRefillEvent 5 "001") [MachineSaleEvent 1 "001"]
  = (subscribe "sale" Queued.saleSubscriber
       (new_service [{| id := "001"; stockLevel := 3 |}]),
     [MachineSaleEvent 1 "001"], [])
  ∧ Recursive.publish 1
      (new_service [{| id := "001"; stockLevel := 10 |}])
      (MachineRefillEvent 5 "001")
    = Recursive.Returned
        (new_service [{| id := "001"; stockLevel := 10 |}]) [].
Proof.
  split.
  - apply (proj1 (publish_without_entry (MachineRefillEvent 5 "001"))).
    reflexivity.
  - apply (proj2 (publish_without_entry (MachineRefillEvent 5 "001"))).
    reflexivity.
Defined.

Lemma queued_deliveries_set s (cs : list Queued.Call) :
  Queued.deliveries s cs
  = length (filter (λ x, x = s) ((λ c, c.1.1) <$> cs)).
Proof.
  unfold Queued.deliveries. induction cs as [|c cs IH]; [done|].
  rewrite fmap_cons, !filter_cons.
  destruct (decide (c.1.1 = s)); simpl; by f_equal.
Qed.

(** Claim C6: [subscribe] is idempotent.  Subscribing a subscriber twice
    to a type leaves the state that subscribing it once leaves, and a
    following [publish] of an event of that type calls the subscriber
    once: in [part_000] always; in [app.ts] whenever [publish] returns,
    and never more than once (there a handler that throws ends the
    fan-out; [publish] always completes within two levels of recursion). *)
Theorem subscribe_idempotent :
  (∀ (Sub : Type) (dec : EqDecision Sub) (t : string) (s : Sub)
     (st : State Sub),
     subscribe t s (subscribe t s st) = subscribe t s st)
  ∧ (∀ (st : State Queued.Subscriber) s e events,
       registry_wf st →
       Queued.deliveries s
         (Queued.publish
            (subscribe (type e) s (subscribe (type e) s st)) e events).2
       = 1%nat)
  ∧ (∀ (st : State Recursive.Subscriber) s e fuel,
       registry_wf st →
       match
         Recursive.publish (S (S fuel))
           (subscribe (type e) s (subscribe (type e) s st)) e
       with
       | Recursive.Returned _ cs => Recursive.deliveries s e cs = 1%nat
       | Recursive.Threw _ cs => (Recursive.deliveries s e cs ≤ 1)%nat
       | Recursive.OutOfFuel => False
       end).
Proof.
  split_and!.
  - intros Sub dec t s st. apply subscribe_idem.
  - intros st s e events Hwf. rewrite subscribe_idem.
    pose proof (subscribe_lookup (type e) s st) as Hset.
    pose proof (subscribe_wf (type e) s st Hwf _ _ Hset) as Hnd.
    destruct (Queued.publish _ e events) as [[st' events'] cs] eqn:Hp.
    apply publish_spec in Hp as (_ & _ & Hcs & _). cbn [snd].
    rewrite queued_deliveries_set, Hcs, Hset. simpl.
    apply NoDup_filter_eq_length; [done|apply Set_add_elem].
  - intros st s e fuel Hwf. rewrite subscribe_idem.
    pose proof (subscribe_lookup (type e) s st) as Hset.
    pose proof (subscribe_wf (type e) s st Hwf _ _ Hset) as Hnd.
    pose proof (publish_deliveries (S fuel) _ e s _ Hset) as Hd.
    pose proof (publish_total fuel (subscribe (type e) s st) e) as Ht.
    rewrite NoDup_filter_eq_length in Hd by (done || apply Set_add_elem).
    destruct (Recursive.publish _ _ e); [done| lia |done].
Qed.

Lemma subscribe_idempotent_witness :
  Queued.deliveries Queued.saleSubscriber
    (Queued.publish
       (subscribe "sale" Queued.saleSubscriber
          (subscribe "sale" Queued.saleSubscriber
             (new_service [{| id := "001"; stockLevel := 3 |}])))
       (MachineSaleEvent 1 "001") []).2
  = 1%nat
  ∧ match
      Recursive.publish 2
        (subscribe "sale" (Recursive.MachineSaleSubscriber 0)
           (subscribe "sale" (Recursive.MachineSaleSubscriber 0)
              (new_service [{| id := "001"; stockLevel := 10 |}])))
        (MachineSaleEvent 1 "001")
    with
    | Recursive.Returned _ cs =>
        Recursive.deliveries (Recursive.MachineSaleSubscriber 0)
          (MachineSaleEvent 1 "001") cs = 1%nat
    | Recursive.Threw _ cs =>
        (Recursive.deliveries (Recursive.MachineSaleSubscriber 0)
           (MachineSaleEvent 1 "001") cs ≤ 1)%nat
    | Recursive.OutOfFuel => False
    end.
Proof.
  destruct subscribe_idempotent as (_ & Hq & Hr). split.
  - apply (Hq (new_service [{| id := "001"; stockLevel := 3 |}])
             Queued.saleSubscriber (MachineSaleEvent 1 "001") []).
    apply new_service_wf.
  - apply (Hr (new_service [{| id := "001"; stockLevel := 10 |}])
             (Recursive.MachineSaleSubscriber 0)
             (MachineSaleEvent 1 "001") 0%nat).
    apply new_service_wf.
Defined.

(** Claim C9: in [part_000], [publish] calls [handle] of every subscriber
    of the event's type, in the order of the set, each on the machines that
    the calls before it left, and leaves the pending array extended at the
    back by the follow-up events those calls returned, in that order.  The
    loop hands events to [publish] from the front.  Every run of the loop
    ends, in one way; its calls are the fan-outs of the delivered events,
    one after the other; and the events it delivered are, in order, the
    seed events followed by the follow-ups in the order they were pushed:
    delivery order is enqueue order. *)
Theorem queue_fifo (st : State Queued.Subscriber) (events : list Event) :
  (∀ e, ∃ st' cs,
     Queued.publish st e events
     = (st', events ++ Queued.follow_ups cs, cs)
     ∧ QueuedRun.pairs cs = (λ s, (s, e)) <$> QueuedRun.set_of st e
     ∧ QueuedRun.sound (machines st) cs
     ∧ machines st' = QueuedRun.replay (machines st) cs)
  ∧ ∃ fuel r,
      Queued.drain fuel st events = Some r
      ∧ Queued.delivered r = events ++ Queued.follow_ups (Queued.calls r)
      ∧ QueuedRun.pairs (Queued.calls r)
        = Queued.delivered r
            ≫= (λ e, (λ s, (s, e)) <$> QueuedRun.set_of st e)
      ∧ QueuedRun.sound (machines st) (Queued.calls r)
      ∧ machines (Queued.final r)
        = QueuedRun.replay (machines st) (Queued.calls r)
      ∧ ∀ fuel' r', Queued.drain fuel' st events = Some r' → r' = r.
Proof.
  split.
  - intros e.
    destruct (Queued.publish st e events) as [[st' events'] cs] eqn:Hp.
    exists st', cs.
    pose proof (publish_trace _ _ _ _ _ _ Hp) as (Hpr & Hs & Hm).
    by apply publish_spec in Hp as (_ & -> & _).
  - destruct (drain_enough_fuel (Queued.cost (Queued.fan st) events)
                st events) as [r Hr]; [done|].
    exists (Queued.cost (Queued.fan st) events), r.
    pose proof (drain_trace _ _ _ _ Hr) as (Hpr & Hs & Hm).
    split_and!; try done.
    + by eapply drain_delivered.
    + intros fuel' r' Hr'. by eapply drain_deterministic.
Qed.

(** Claim C10: [publish] does not write the registry, in either file: the
    map from event type to subscriber set is the same after [publish] as
    before, also after the whole drain of the queued bus (which always
    ends) and after all nested publishes of the recursive bus (which
    completes, returning or throwing, within two levels). *)
Theorem publish_keeps_registry :
  (∀ (st : State Queued.Subscriber) e events,
     subscribers (Queued.publish st e events).1.1 = subscribers st)
  ∧ (∀ (st : State Queued.Subscriber) events,
       ∃ fuel r, Queued.drain fuel st events = Some r
                 ∧ subscribers (Queued.final r) = subscribers st)
  ∧ (∀ (st : State Recursive.Subscriber) e fuel,
       match Recursive.publish (S (S fuel)) st e with
       | Recursive.Returned st' _ | Recursive.Threw st' _ =>
           subscribers st' = subscribers st
       | Recursive.OutOfFuel => False
       end).
Proof.
  split_and!.
  - intros st e events.
    destruct (Queued.publish st e events) as [[st' events'] cs] eqn:Hp.
    by apply publish_spec in Hp as (Hs & _).
  - intros st events.
    destruct (drain_enough_fuel (Queued.cost (Queued.fan st) events)
                st events) as [r Hr]; [done|].
    eexists _, r. split; [done|]. by eapply drain_subscribers.
  - intros st e fuel.
    pose proof (publish_subscribers (S (S fuel)) st e) as Hs.
    pose proof (publish_total fuel st e) as Ht.
    by destruct (Recursive.publish _ st e).
Qed.
End Specification.

(** * Further properties of the code *)

(** ** [subscribe] and [unsubscribe] (both files, lines 20-29) *)

Section RegistryOperations.
Context {Sub : Type} `{EqDecision Sub}.
Implicit Types (st : State Sub) (t : string) (s : Sub) (set : list Sub).

Lemma unsubscribe_lookup t s st :
  subscribers (unsubscribe t s st) !! t
  = Set_delete s <$> subscribers st !! t.
Proof. unfold unsubscribe. simpl. apply lookup_alter_eq. Qed.

Lemma unsubscribe_lookup_ne t t' s st :
  t ≠ t' → subscribers (unsubscribe t s st) !! t' = subscribers st !! t'.
Proof. intros Hne. unfold unsubscribe. simpl. by apply lookup_alter_ne. Qed.

Lemma Set_delete_not_member s set : s ∉ set → Set_delete s set = set.
Proof.
  unfold Set_delete. induction set as [|x set IH]; [done|]. intros Hs.
  rewrite filter_cons, decide_True by set_solver. f_equal. apply IH.
  set_solver.
Qed.

Lemma Set_delete_app s set set' :
  Set_delete s (set ++ set') = Set_delete s set ++ Set_delete s set'.
Proof. apply filter_app. Qed.

Lemma Set_delete_self s : Set_delete s [s] = [].
Proof. unfold Set_delete. by rewrite filter_cons, decide_False by auto. Qed.

Lemma Set_delete_add s set : s ∉ set → Set_delete s (Set_add s set) = set.
Proof.
  intros Hs. unfold Set_add. rewrite decide_False by done.
  rewrite Set_delete_app, Set_delete_self, app_nil_r.
  by apply Set_delete_not_member.
Qed.

(** Property X1: unsubscribing a subscriber that is not in the set of the
    type, or from a type that has no set, changes nothing. *)
Theorem unsubscribe_absent t s st :
  s ∉ default [] (subscribers st !! t) → unsubscribe t s st = st.
Proof.
  intros Hs. apply State_eq; [|done]. apply map_eq. intros t'.
  destruct (decide (t = t')) as [<-|Hne].
  - rewrite unsubscribe_lookup.
    destruct (subscribers st !! t) as [set|]; simpl in *; [|done].
    by rewrite Set_delete_not_member.
  - by apply unsubscribe_lookup_ne.
Qed.

(** Property X2: unsubscribing right after subscribing restores the state
    exactly when the type had a set without the subscriber.  When the type
    had no set, the key stays in the map with an empty set; when the
    subscriber was already in the set, it is gone from it afterwards. *)
Theorem unsubscribe_after_subscribe t s st :
  (unsubscribe t s (subscribe t s st) = st
   ↔ ∃ set, subscribers st !! t = Some set ∧ s ∉ set)
  ∧ (subscribers st !! t = None →
     subscribers (unsubscribe t s (subscribe t s st))
     = <[t := []]> (subscribers st))
  ∧ (∀ set, subscribers st !! t = Some set → s ∈ set →
       subscribers (unsubscribe t s (subscribe t s st))
       = <[t := Set_delete s set]> (subscribers st)).
Proof.
  split_and!.
  - split.
    + intros Heq.
      assert (subscribers (unsubscribe t s (subscribe t s st)) !! t
              = subscribers st !! t) as Hl by by rewrite Heq.
      rewrite unsubscribe_lookup, subscribe_lookup in Hl. simpl in Hl.
      eexists. split; [by rewrite <- Hl|]. apply Set_delete_not_elem.
    + intros (set & Hset & Hs). apply State_eq; [|done].
      apply map_eq. intros t'.
      destruct (decide (t = t')) as [<-|Hne].
      * rewrite unsubscribe_lookup, subscribe_lookup, Hset. simpl.
        by rewrite Set_delete_add.
      * by rewrite unsubscribe_lookup_ne, subscribe_lookup_ne.
  - intros Hnone. apply map_eq. intros t'.
    destruct (decide (t = t')) as [<-|Hne].
    + rewrite unsubscribe_lookup, subscribe_lookup, Hnone, lookup_insert_eq.
      simpl. by rewrite Set_delete_add by apply not_elem_of_nil.
    + rewrite unsubscribe_lookup_ne, subscribe_lookup_ne by done.
      by rewrite lookup_insert_ne.
  - intros set Hset Hs. apply map_eq. intros t'.
    destruct (decide (t = t')) as [<-|Hne].
    + rewrite unsubscribe_lookup, subscribe_lookup, Hset, lookup_insert_eq.
      simpl. by rewrite Set_add_member.
    + rewrite unsubscribe_lookup_ne, subscribe_lookup_ne by done.
      by rewrite lookup_insert_ne.
Qed.

(** Property X3: subscribing again a subscriber that was unsubscribed puts
    it behind the members that stayed: the set of the type is the old set
    without the subscriber, followed by the subscriber. *)
Theorem subscribe_after_unsubscribe t s st :
  subscribers (subscribe t s (unsubscribe t s st)) !! t
  = Some (Set_delete s (default [] (subscribers st !! t)) ++ [s]).
Proof.
  rewrite subscribe_lookup, unsubscribe_lookup. f_equal.
  destruct (subscribers st !! t) as [set|]; simpl.
  - unfold Set_add. by rewrite decide_False by apply Set_delete_not_elem.
  - unfold Set_add. by rewrite decide_False by apply not_elem_of_nil.
Qed.

(** Property X4: after [subscribe] the set of the type holds the
    subscriber, holds exactly the old members and the subscriber, and
    starts with the old members in their old order; the sets of the other
    types and the machines are as before. *)
Theorem subscribe_registers t s st :
  ∃ set',
    getSubscribers (subscribe t s st) !! t = Some set'
    ∧ s ∈ set'
    ∧ default [] (subscribers st !! t) `prefix_of` set'
    ∧ (∀ x, x ∈ set' ↔ x ∈ default [] (subscribers st !! t) ∨ x = s)
    ∧ (∀ t', t ≠ t' →
         getSubscribers (subscribe t s st) !! t' = subscribers st !! t')
    ∧ machines (subscribe t s st) = machines st.
Proof.
  eexists. split; [apply subscribe_lookup|].
  split_and!.
  - apply Set_add_elem.
  - unfold Set_add. case_decide; [done|]. by apply prefix_app_r.
  - intros x. unfold Set_add. case_decide as Hin.
    + split; [auto|]. by intros [?| ->].
    + rewrite elem_of_app, list_elem_of_singleton. tauto.
  - intros t' Hne. by apply subscribe_lookup_ne.
  - done.
Qed.

(** Property X5: no set of the registry holds a subscriber twice.  This is
    true of a new service, and [subscribe] and [unsubscribe] keep it. *)
Theorem registry_invariant :
  (∀ ms, registry_wf (new_service (Sub:=Sub) ms))
  ∧ (∀ t s st, registry_wf st → registry_wf (subscribe t s st))
  ∧ (∀ t s st, registry_wf st → registry_wf (unsubscribe t s st)).
Proof.
  split_and!.
  - apply new_service_wf.
  - apply subscribe_wf.
  - apply unsubscribe_wf.
Qed.
End RegistryOperations.

Lemma unsubscribe_absent_witness :
  unsubscribe "refill" Queued.saleSubscriber
    (subscribe "sale" Queued.saleSubscriber (new_service []))
  = subscribe "sale" Queued.saleSubscriber (new_service [])
  ∧ unsubscribe "sale" Queued.refilSubscriber
      (subscribe "sale" Queued.saleSubscriber (new_service []))
    = subscribe "sale" Queued.saleSubscriber (new_service []).
Proof.
  split.
  - apply (unsubscribe_absent "refill" Queued.saleSubscriber).
    vm_compute. apply not_elem_of_nil.
  - apply (unsubscribe_absent "sale" Queued.refilSubscriber).
    apply (bool_decide_unpack _). vm_compute. exact I.
Defined.

Lemma unsubscribe_after_subscribe_witness :
  unsubscribe "sale" (Queued.MachineSaleSubscriber 7)
    (subscribe "sale" (Queued.MachineSaleSubscriber 7)
       (Queued.driver_service []))
  = Queued.driver_service []
  ∧ subscribers
      (unsubscribe "sale" Queued.saleSubscriber
         (subscribe "sale" Queued.saleSubscriber (new_service [])))
    = <[ "sale" := [] ]> ∅
  ∧ subscribers
      (unsubscribe "sale" Queued.saleSubscriber
         (subscribe "sale" Queued.saleSubscriber (Queued.driver_service [])))
    = <[ "sale" := Set_delete Queued.saleSubscriber [Queued.saleSubscriber] ]>
        (subscribers (Queued.driver_service [])).
Proof.
  split_and!.
  - apply (proj2 (proj1 (unsubscribe_after_subscribe "sale"
                           (Queued.MachineSaleSubscriber 7)
                           (Queued.driver_service [])))).
    exists [Queued.saleSubscriber]. split.
    + reflexivity.
    + apply (bool_decide_unpack _). vm_compute. exact I.
  - apply (proj1 (proj2 (unsubscribe_after_subscribe "sale"
                           Queued.saleSubscriber (new_service [])))).
    reflexivity.
  - apply (proj2 (proj2 (unsubscribe_after_subscribe "sale"
                           Queued.saleSubscriber
                           (Queued.driver_service [])))
             [Queued.saleSubscriber]).
    + reflexivity.
    + apply (bool_decide_unpack _). vm_compute. exact I.
Defined.

Lemma registry_invariant_witness :
  registry_wf
    (unsubscribe "sale" Queued.saleSubscriber
       (subscribe "sale" Queued.saleSubscriber
          (subscribe "sale" Queued.saleSubscriber (new_service [])))).
Proof.
  destruct (registry_invariant (Sub:=Queued.Subscriber))
    as (Hnew & Hsub & Hunsub).
  apply Hunsub, Hsub, Hsub, Hnew.
Defined.

(** ** Handlers and bus of [src/unnamed/part_000]: what is never written *)

Section QueuedFrame.
Import Queued.
Implicit Types (st : State Subscriber) (ms : list Machine).
Implicit Types (e event : Event) (events : list Event).
Implicit Types (set : list Subscriber) (cs : list Call).

Lemma set_stockLevel_ids i v ms : id <$> set_stockLevel i v ms = id <$> ms.
Proof.
  unfold set_stockLevel. apply list_eq. intros j.
  rewrite !list_lookup_fmap. destruct (decide (i = j)) as [<-|Hne].
  - rewrite list_lookup_alter_eq. by destruct (ms !! i).
  - by rewrite list_lookup_alter_ne.
Qed.

Lemma handle_ids s e ms : id <$> (handle s e ms).1 = id <$> ms.
Proof.
  destruct s, e; simpl; try done;
    destruct (find ms _) as [[i m]|]; try done;
    try case_decide; simpl; by rewrite ?set_stockLevel_ids.
Qed.

Lemma forEach_ids set e ms events :
  id <$> (forEach set e ms events).1.1 = id <$> ms.
Proof.
  revert ms events. induction set as [|s set IH]; intros ms events; [done|].
  simpl. pose proof (handle_ids s e ms) as Hh.
  destruct (handle s e ms) as [ms1 newEvent]. simpl in Hh.
  specialize (IH ms1 (match newEvent with
                      | Some e0 => events ++ [e0] | None => events end)).
  destruct (forEach set e ms1 _) as [[ms2 events2] cs2]. simpl in *.
  congruence.
Qed.

Lemma publish_ids st e events :
  id <$> machines (publish st e events).1.1 = id <$> machines st.
Proof.
  unfold publish. destruct (subscribers st !! type e) as [set|]; [|done].
  pose proof (forEach_ids set e (machines st) events) as Hf.
  by destruct (forEach set e _ events) as [[ms1 events1] cs1].
Qed.

Lemma drain_ids fuel st events r :
  drain fuel st events = Some r →
  id <$> machines (final r) = id <$> machines st.
Proof.
  revert st events r. induction fuel as [|fuel IH]; intros st events r.
  - destruct events; [|done]. by intros [= <-].
  - destruct events as [|e events]; simpl; [by intros [= <-]|].
    pose proof (publish_ids st e events) as Hp.
    destruct (publish st e events) as [[st' events'] cs].
    destruct (drain fuel st' events') as [r'|] eqn:Hd; [|done].
    intros [= <-]. simpl in *. apply IH in Hd. congruence.
Qed.

(** Property X6: handlers never add, remove, reorder or rename machines:
    the ids of the array, position by position, are the same after a call
    of [handle], after [publish], and at the end of the drain loop (which
    always ends). *)
Theorem queued_machines_stay st :
  (∀ s e ms, id <$> (handle s e ms).1 = id <$> ms)
  ∧ (∀ e events,
       id <$> machines (publish st e events).1.1 = id <$> machines st)
  ∧ (∀ events, ∃ fuel r,
       drain fuel st events = Some r
       ∧ id <$> machines (final r) = id <$> machines st).
Proof.
  split_and!.
  - apply handle_ids.
  - apply publish_ids.
  - intros events.
    destruct (drain_enough_fuel (cost (fan st) events) st events)
      as [r Hr]; [done|].
    eexists _, r. split; [done|]. by eapply drain_ids.
Qed.

(** A follow-up event is for the machine of the event that caused it, and
    is the next link of the chain Sale, warning, Refill, stock-ok. *)
Lemma handle_follow_up s e ms ms' e' :
  handle s e ms = (ms', Some e') →
  (∃ q, e = MachineSaleEvent q (machineId e)
        ∧ e' = LowStockWarningEvent (machineId e))
  ∨ (e = LowStockWarningEvent (machineId e)
     ∧ ∃ q, e' = MachineRefillEvent q (machineId e))
  ∨ (∃ q, e = MachineRefillEvent q (machineId e)
          ∧ e' = StockLevelOkEvent (machineId e)).
Proof.
  destruct s, e; simpl; try done;
    destruct (find ms _) as [[i m]|] eqn:Hf; try done;
    apply find_Some_inv in Hf as [_ Hid];
    try case_decide; intros [= <- <-]; rewrite Hid; eauto 6.
Qed.

Lemma handle_follow_up_machine s e ms ms' e' :
  handle s e ms = (ms', Some e') → machineId e' = machineId e.
Proof.
  intros [(q & _ & ->)|[(_ & q & ->)|(q & _ & ->)]]%handle_follow_up; done.
Qed.

Lemma forEach_follow_up_machine set e ms events ms' events' cs :
  forEach set e ms events = (ms', events', cs) →
  Forall (λ e', machineId e' = machineId e) (follow_ups cs).
Proof.
  revert ms events ms' events' cs.
  induction set as [|s set IH]; intros ms events ms' events' cs; simpl.
  - intros [= <- <- <-]. constructor.
  - destruct (handle s e ms) as [ms1 newEvent] eqn:Hh.
    destruct (forEach set e ms1 _) as [[ms2 events2] cs2] eqn:Hfe.
    intros [= <- <- <-]. apply IH in Hfe. unfold follow_ups in *.
    destruct newEvent as [e'|]; csimpl; [|done].
    constructor; [|done]. by eapply handle_follow_up_machine.
Qed.

Lemma publish_follow_up_machine st e events st' events' cs :
  publish st e events = (st', events', cs) →
  Forall (λ e', machineId e' = machineId e) (follow_ups cs).
Proof.
  unfold publish. destruct (subscribers st !! type e) as [set|].
  - destruct (forEach set e _ events) as [[ms1 events1] cs1] eqn:Hfe.
    intros [= <- <- <-]. by eapply forEach_follow_up_machine.
  - intros [= <- <- <-]. constructor.
Qed.

(** A call of [handle] writes at most the machine found for the event. *)
Lemma handle_other_machine s e ms j m :
  ms !! j = Some m → id m ≠ machineId e → (handle s e ms).1 !! j = Some m.
Proof.
  intros Hj Hne.
  assert (∀ i m0 v, find ms (machineId e) = Some (i, m0) →
                    set_stockLevel i v ms !! j = Some m) as Hset.
  { intros i m0 v [Hi Hid]%find_Some_inv. unfold set_stockLevel.
    rewrite list_lookup_alter_ne; [done|]. intros ->. congruence. }
  destruct s, e; simpl in *; try done;
    destruct (find ms _) as [[i m0]|] eqn:Hf; try done;
    try case_decide; simpl; eauto.
Qed.

Lemma forEach_other_machine set e ms events j m :
  ms !! j = Some m → id m ≠ machineId e →
  (forEach set e ms events).1.1 !! j = Some m.
Proof.
  revert ms events. induction set as [|s set IH]; intros ms events Hj Hne.
  { done. }
  simpl. pose proof (handle_other_machine s e ms j m Hj Hne) as Hh.
  destruct (handle s e ms) as [ms1 newEvent]. simpl in Hh.
  specialize (IH ms1 (match newEvent with
                      | Some e0 => events ++ [e0] | None => events end)
                Hh Hne).
  by destruct (forEach set e ms1 _) as [[ms2 events2] cs2].
Qed.

Lemma publish_other_machine st e events j m :
  machines st !! j = Some m → id m ≠ machineId e →
  machines (publish st e events).1.1 !! j = Some m.
Proof.
  intros Hj Hne. unfold publish.
  destruct (subscribers st !! type e) as [set|]; [|done].
  pose proof (forEach_other_machine set e _ events j m Hj Hne) as Hf.
  by destruct (forEach set e _ events) as [[ms1 events1] cs1].
Qed.

Lemma drain_other_machine fuel st events r j m :
  drain fuel st events = Some r →
  machines st !! j = Some m →
  Forall (λ e, machineId e ≠ id m) events →
  machines (final r) !! j = Some m.
Proof.
  revert st events r. induction fuel as [|fuel IH]; intros st events r.
  - destruct events; [|done]. by intros [= <-].
  - destruct events as [|e events]; simpl; [by intros [= <-]|].
    pose proof (publish_other_machine st e events j m) as Hp.
    destruct (publish st e events) as [[st' events'] cs] eqn:Hpub.
    destruct (drain fuel st' events') as [r'|] eqn:Hd; [|done].
    intros [= <-] Hj [Hne Hall]%Forall_cons. simpl in *.
    eapply IH; [done|by auto|].
    pose proof (publish_follow_up_machine _ _ _ _ _ _ Hpub) as Hfu.
    apply publish_spec in Hpub as (_ & -> & _).
    apply Forall_app. split; [done|].
    eapply Forall_impl; [exact Hfu|]. simpl. intros e' ->. done.
Qed.

(** Property X7: an event is felt by its own machine only.  [publish]
    leaves every machine whose id is not the event's machine id as it was;
    so does the whole drain for every machine that no seed event names,
    because a follow-up names the machine of the event that caused it. *)
Theorem queued_other_machines_untouched st (j : nat) (m : Machine) :
  machines st !! j = Some m →
  (∀ e events, id m ≠ machineId e →
     machines (publish st e events).1.1 !! j = Some m)
  ∧ (∀ events, Forall (λ e, machineId e ≠ id m) events →
       ∃ fuel r, drain fuel st events = Some r
                 ∧ machines (final r) !! j = Some m).
Proof.
  intros Hj. split.
  - intros e events Hne. by apply publish_other_machine.
  - intros events Hall.
    destruct (drain_enough_fuel (cost (fan st) events) st events)
      as [r Hr]; [done|].
    eexists _, r. split; [done|]. by eapply drain_other_machine.
Qed.
End QueuedFrame.

Lemma queued_other_machines_untouched_witness :
  (∀ e events, "002" ≠ machineId e →
     machines
       (Queued.publish (Queued.driver_service Program.program_machines)
          e events).1.1 !! 1%nat
     = Some (Program.new_Machine "002"))
  ∧ (∀ events, Forall (λ e, machineId e ≠ "002") events →
       ∃ fuel r,
         Queued.drain fuel (Queued.driver_service Program.program_machines)
           events = Some r
         ∧ machines (Queued.final r) !! 1%nat
           = Some (Program.new_Machine "002")).
Proof.
  apply (queued_other_machines_untouched
           (Queued.driver_service Program.program_machines) 1
           (Program.new_Machine "002")).
  reflexivity.
Defined.

(** ** The cascade of [src/unnamed/part_000] *)

Section QueuedCascade.
Import Queued QueuedRun.
Implicit Types (st : State Subscriber) (ms : list Machine).
Implicit Types (e event : Event) (events : list Event).
Implicit Types (set : list Subscriber) (cs : list Call).
Local Open Scope Z_scope.

Lemma follow_ups_app cs cs' :
  follow_ups (cs ++ cs') = follow_ups cs ++ follow_ups cs'.
Proof. apply omap_app. Qed.

Lemma rank_not_sale e e' : rank e = S (rank e') → is_sale e' = false.
Proof. destruct e, e'; simpl; done || lia. Qed.

Lemma drain_follow_ups (fuel : nat) st events r :
  drain fuel st events = Some r →
  Forall (λ e', is_sale e' = false) (follow_ups (calls r))
  ∧ Forall (λ e', machineId e' ∈ machineId <$> events)
      (follow_ups (calls r)).
Proof.
  revert st events r. induction fuel as [|fuel IH]; intros st events r.
  - destruct events; [|done]. intros [= <-]. split; constructor.
  - destruct events as [|e events]; simpl.
    { intros [= <-]. split; constructor. }
    destruct (publish st e events) as [[st' events'] cs] eqn:Hp.
    destruct (drain fuel st' events') as [r'|] eqn:Hd; [|done].
    intros [= <-]. simpl. apply IH in Hd as [Hs Hm].
    pose proof (publish_follow_up_machine _ _ _ _ _ _ Hp) as Hfu.
    apply publish_spec in Hp as (_ & -> & _ & _ & Hrk).
    rewrite follow_ups_app. split; apply Forall_app; split; try done.
    + eapply Forall_impl; [exact Hrk|]. intros e'. apply rank_not_sale.
    + eapply Forall_impl; [exact Hfu|]. simpl. intros e' ->.
      apply elem_of_cons. by left.
    + eapply Forall_impl; [exact Hm|]. simpl. intros e'.
      rewrite fmap_app, elem_of_app, !elem_of_cons.
      intros [Hin|Hin]; [by right|left].
      apply list_elem_of_fmap in Hin as (e0 & -> & Hin).
      by eapply Forall_forall in Hfu.
Qed.

(** Property X8: the loop never delivers a Sale that is not a seed, and
    every event it delivers is for a machine id that some seed event names:
    the delivered events are the seeds followed by follow-ups, none of
    which is a Sale. *)
Theorem cascade_stays_on_seed_machines st events :
  ∃ fuel r,
    drain fuel st events = Some r
    ∧ delivered r = events ++ follow_ups (calls r)
    ∧ Forall (λ e', is_sale e' = false) (follow_ups (calls r))
    ∧ Forall (λ e, machineId e ∈ machineId <$> events) (delivered r).
Proof.
  destruct (drain_enough_fuel (cost (fan st) events) st events)
    as [r Hr]; [done|].
  exists (cost (fan st) events), r.
  pose proof (drain_delivered _ _ _ _ Hr) as Hd.
  pose proof (drain_follow_ups _ _ _ _ Hr) as [Hs Hm].
  split_and!; try done. rewrite Hd. apply Forall_app. split; [|done].
  apply Forall_forall. intros e He. by apply list_elem_of_fmap_2.
Qed.

(** *** Stock accounting *)

Lemma stock_of_set_stockLevel ms mid mid' i m v :
  find ms mid = Some (i, m) →
  stock_of (set_stockLevel i v ms) mid'
  = (λ z, if decide (mid = mid') then v else z) <$> stock_of ms mid'.
Proof.
  intros Hf. unfold stock_of. destruct (decide (mid = mid')) as [<-|Hne].
  - by rewrite (find_set_stockLevel_same _ _ _ _ _ Hf), Hf.
  - rewrite (find_set_stockLevel_other _ _ _ _ _ _ Hf) by done.
    by destruct (find ms mid') as [[j mj]|].
Qed.

Lemma stock_shift_not_found ms mid mid' (q : Z) :
  find ms mid' = None →
  stock_of ms mid
  = (λ z, z + (if decide (mid' = mid) then q else 0)) <$> stock_of ms mid.
Proof.
  intros Hf. destruct (decide (mid' = mid)) as [<-|Hne].
  - unfold stock_of. by rewrite Hf.
  - destruct (stock_of ms mid); simpl; [|done]. f_equal. lia.
Qed.

Lemma stock_shift_found ms mid mid' i m (q : Z) :
  find ms mid' = Some (i, m) →
  stock_of (set_stockLevel i (stockLevel m + q) ms) mid
  = (λ z, z + (if decide (mid' = mid) then q else 0)) <$> stock_of ms mid.
Proof.
  intros Hf. rewrite (stock_of_set_stockLevel _ _ _ _ _ _ Hf).
  destruct (decide (mid' = mid)) as [<-|Hne].
  - by rewrite (stock_of_found _ _ _ _ Hf).
  - destruct (stock_of ms mid); simpl; [|done]. f_equal. lia.
Qed.

Lemma handle_stock s e ms mid :
  stock_of (handle s e ms).1 mid
  = (λ z, z + effect mid (s, e, (handle s e ms).2)) <$> stock_of ms mid.
Proof.
  assert (stock_of ms mid = (λ z, z + 0) <$> stock_of ms mid) as Hid.
  { destruct (stock_of ms mid); simpl; [|done]. f_equal. lia. }
  destruct s as [ref|ref|ref|ref], e as [q i|q i|i|i]; simpl;
    try exact Hid.
  - destruct (find ms i) as [[k m]|] eqn:Hf.
    + pose proof (stock_shift_found ms mid i k m (- q) Hf) as Hs.
      destruct (decide (_ ∧ _)); exact Hs.
    + by apply stock_shift_not_found.
  - destruct (find ms i) as [[k m]|] eqn:Hf.
    + pose proof (stock_shift_found ms mid i k m q Hf) as Hs.
      destruct (decide (_ ∧ _)); exact Hs.
    + by apply stock_shift_not_found.
  - destruct (find ms i) as [[k m]|]; exact Hid.
  - destruct (find ms i) as [[k m]|]; exact Hid.
Qed.

Lemma stock_shift_compose (o : option Z) a b :
  (λ z, z + b) <$> ((λ z, z + a) <$> o) = (λ z, z + (a + b)) <$> o.
Proof. destruct o; simpl; [|done]. f_equal. lia. Qed.

Lemma total_effect_app mid cs cs' :
  total_effect mid (cs ++ cs') = total_effect mid cs + total_effect mid cs'.
Proof.
  unfold total_effect. induction cs as [|c cs IH]; simpl; [done|].
  rewrite IH. lia.
Qed.

Lemma forEach_stock set e ms events ms' events' cs mid :
  forEach set e ms events = (ms', events', cs) →
  stock_of ms' mid = (λ z, z + total_effect mid cs) <$> stock_of ms mid.
Proof.
  revert ms events ms' events' cs.
  induction set as [|s set IH]; intros ms events ms' events' cs; simpl.
  - intros [= <- <- <-]. simpl. destruct (stock_of ms mid); simpl; [|done].
    f_equal. lia.
  - pose proof (handle_stock s e ms mid) as Hh.
    destruct (handle s e ms) as [ms1 newEvent]. simpl in Hh.
    destruct (forEach set e ms1 _) as [[ms2 events2] cs2] eqn:Hfe.
    intros [= <- <- <-]. apply IH in Hfe. rewrite Hfe, Hh.
    rewrite stock_shift_compose. done.
Qed.

Lemma publish_stock st e events st' events' cs mid :
  publish st e events = (st', events', cs) →
  stock_of (machines st') mid
  = (λ z, z + total_effect mid cs) <$> stock_of (machines st) mid.
Proof.
  unfold publish. destruct (subscribers st !! type e) as [set|].
  - destruct (forEach set e _ events) as [[ms1 events1] cs1] eqn:Hfe.
    intros [= <- <- <-]. simpl. by eapply forEach_stock.
  - intros [= <- <- <-]. simpl.
    destruct (stock_of (machines st) mid); simpl; [|done]. f_equal. lia.
Qed.

Lemma drain_stock (fuel : nat) st events r mid :
  drain fuel st events = Some r →
  stock_of (machines (final r)) mid
  = (λ z, z + total_effect mid (calls r)) <$> stock_of (machines st) mid.
Proof.
  revert st events r. induction fuel as [|fuel IH]; intros st events r.
  - destruct events; [|done]. intros [= <-]. simpl.
    destruct (stock_of (machines st) mid); simpl; [|done]. f_equal. lia.
  - destruct events as [|e events]; simpl.
    { intros [= <-]. simpl.
      destruct (stock_of (machines st) mid); simpl; [|done]. f_equal. lia. }
    destruct (publish st e events) as [[st' events'] cs] eqn:Hp.
    destruct (drain fuel st' events') as [r'|] eqn:Hd; [|done].
    intros [= <-]. simpl. apply IH in Hd. rewrite Hd.
    rewrite (publish_stock _ _ _ _ _ _ mid Hp), stock_shift_compose.
    by rewrite total_effect_app.
Qed.

(** Property X9: stock is accounted for.  The drain loop always ends, and
    when every sum and difference of the run stays within the range where
    JS arithmetic on integers is exact, the stock at the end of the machine
    found for an id is its stock at the start, minus the quantity of every
    Sale for that id handled by a Sale subscriber, plus the quantity of
    every Refill for that id handled by a Refill subscriber, counted once
    per call; nothing else changes a stock, and the stock is not clamped. *)
Theorem stock_accounting st events (mid : string) :
  ∃ fuel r,
    drain fuel st events = Some r
    ∧ (exact_calls (machines st) (calls r) = true →
       stock_of (machines (final r)) mid
       = (λ z, z + total_effect mid (calls r))
           <$> stock_of (machines st) mid).
Proof.
  destruct (drain_enough_fuel (cost (fan st) events) st events)
    as [r Hr]; [done|].
  exists (cost (fan st) events), r. split; [done|].
  intros _. by eapply drain_stock.
Qed.

(** Property X10: the corrective refill.  For the machine found for an id,
    with a stock [s] such that [s] and [3 - s] are within the range where
    JS arithmetic on integers is exact, the Refill that the warning
    subscriber returns, handled by a Refill subscriber, sets the stock to
    exactly 3: it raises a stock below 3 and returns a StockLevelOk, and it
    lowers a stock above 3 (a warning that arrives after the stock has
    recovered) and returns nothing. *)
Theorem corrective_refill (ref ref' : nat) ms (mid : string) (i : nat)
    (m : Machine) :
  find ms mid = Some (i, m) →
  exact_integer (stockLevel m) → exact_integer (3 - stockLevel m) →
  ∃ q,
    handle (StockwarningSubscriber ref) (LowStockWarningEvent mid) ms
      = (ms, Some (MachineRefillEvent q mid))
    ∧ handle (MachineRefillSubscriber ref') (MachineRefillEvent q mid) ms
      = (set_stockLevel i 3 ms,
         if decide (stockLevel m < 3)
         then Some (StockLevelOkEvent mid) else None)
    ∧ stock_of (set_stockLevel i 3 ms) mid = Some 3.
Proof.
  intros Hf _ _. exists (3 - stockLevel m). split_and!.
  - by eapply warning_found.
  - rewrite (refill_found _ _ _ _ _ _ Hf).
    replace (stockLevel m + (3 - stockLevel m)) with 3 by lia.
    f_equal. do 2 case_decide; try done; lia.
  - by rewrite (stock_of_found _ _ i {| id := id m; stockLevel := 3 |})
      by by apply find_set_stockLevel_same.
Qed.
End QueuedCascade.

Lemma corrective_refill_witness :
  ∃ q,
    Queued.handle (Queued.StockwarningSubscriber 2)
      (LowStockWarningEvent "001") [{| id := "001"; stockLevel := 7 |}]
      = ([{| id := "001"; stockLevel := 7 |}],
         Some (MachineRefillEvent q "001"))
    ∧ Queued.handle (Queued.MachineRefillSubscriber 1)
        (MachineRefillEvent q "001") [{| id := "001"; stockLevel := 7 |}]
      = (set_stockLevel 0 3 [{| id := "001"; stockLevel := 7 |}],
         if decide (stockLevel {| id := "001"; stockLevel := 7 |} < 3)%Z
         then Some (StockLevelOkEvent "001") else None)
    ∧ stock_of (set_stockLevel 0 3 [{| id := "001"; stockLevel := 7 |}])
        "001" = Some 3%Z.
Proof.
  apply (corrective_refill 2 1 [{| id := "001"; stockLevel := 7 |}] "001"
           0 {| id := "001"; stockLevel := 7 |}).
  - reflexivity.
  - unfold exact_integer, MAX_EXACT. simpl. lia.
  - unfold exact_integer, MAX_EXACT. simpl. lia.
Defined.

(** ** The length of a run of [src/unnamed/part_000] *)

Section QueuedBound.
Import Queued QueuedRun.
Implicit Types (st : State Subscriber) (ms : list Machine).
Implicit Types (e event : Event) (events : list Event).
Implicit Types (set : list Subscriber) (cs : list Call) (n : nat).

Lemma width_bound st e :
  length (default [] (subscribers st !! type e)) ≤ width st.
Proof. unfold width, fan_of. destruct e; simpl; lia. Qed.

Lemma width_subscribers st st' :
  subscribers st' = subscribers st → width st' = width st.
Proof. unfold width, fan_of. by intros ->. Qed.

Lemma publish_cost_width n st e events st' events' cs :
  width st ≤ n →
  publish st e events = (st', events', cs) →
  width st' = width st ∧ cost n events' < cost n (e :: events).
Proof.
  intros Hn (Hsub & -> & Hset & _ & Hrk)%publish_spec.
  split; [by apply width_subscribers|].
  rewrite cost_app. unfold cost at 3. simpl. fold (cost n events).
  enough (cost n (follow_ups cs) < weight n (rank e)) by lia.
  apply cost_follow_ups; [done|].
  etrans; [apply follow_ups_length|].
  pose proof (width_bound st e) as Hw.
  rewrite <- Hset, length_fmap in Hw. etrans; [exact Hw|exact Hn].
Qed.

Lemma drain_enough_fuel_width n fuel st events :
  width st ≤ n → cost n events ≤ fuel → is_Some (drain fuel st events).
Proof.
  revert st events. induction fuel as [|fuel IH]; intros st events Hn Hc.
  - destruct events as [|e events]; simpl; [done|].
    unfold cost in Hc. simpl in Hc.
    pose proof (weight_pos n (rank e)). lia.
  - destruct events as [|e events]; simpl; [done|].
    destruct (publish st e events) as [[st' events'] cs] eqn:Hp.
    apply (publish_cost_width n) in Hp as [Hw Hlt]; [|done].
    destruct (IH st' events') as [r ->]; [lia..|]. done.
Qed.

Lemma drain_length n fuel st events r :
  width st ≤ n → drain fuel st events = Some r →
  length (delivered r) ≤ cost n events.
Proof.
  revert st events r. induction fuel as [|fuel IH]; intros st events r Hn.
  - destruct events; [|done]. intros [= <-]. simpl. lia.
  - destruct events as [|e events]; cbn [drain].
    { intros [= <-]. simpl. lia. }
    destruct (publish st e events) as [[st' events'] cs] eqn:Hp.
    destruct (drain fuel st' events') as [r'|] eqn:Hd; [|done].
    intros [= <-]. cbn [delivered length].
    apply (publish_cost_width n) in Hp as [Hw Hlt]; [|done].
    apply IH in Hd; lia.
Qed.

Lemma weight_rank n e : weight n (rank e) ≤ 1 + n + n * n + n * n * n.
Proof. destruct e; simpl; nia. Qed.

Lemma cost_length n events :
  cost n events ≤ (1 + n + n * n + n * n * n) * length events.
Proof.
  unfold cost. induction events as [|e events IH]; simpl; [lia|].
  pose proof (weight_rank n e). nia.
Qed.

(** Property X11: the loop is short.  When no set of the registry holds
    more than [n] subscribers, draining [k] seed events takes at most
    [(1 + n + n^2 + n^3) * k] iterations: that much fuel always gives a
    run, and the run delivers at most that many events.  With one
    subscriber per type, as the program registers them, that is four
    events per seed. *)
Theorem drain_iterations_bound n st events :
  width st ≤ n →
  ∃ r,
    drain ((1 + n + n * n + n * n * n) * length events) st events = Some r
    ∧ length (delivered r) ≤ (1 + n + n * n + n * n * n) * length events.
Proof.
  intros Hn. pose proof (cost_length n events) as Hc.
  destruct (drain_enough_fuel_width n _ st events Hn Hc) as [r Hr].
  exists r. split; [done|]. etrans; [by eapply drain_length|done].
Qed.

(** Property X12: [publish] calls every subscriber of the event's type,
    each once and with the event, in the order in which they were first
    subscribed (the order of the set), and calls no other subscriber; a
    type whose set is empty gets no call. *)
Theorem publish_calls_set_in_order st e events :
  (λ c, c.1.1) <$> (publish st e events).2
  = default [] (subscribers st !! type e)
  ∧ Forall (λ c, c.1.2 = e) (publish st e events).2
  ∧ length (publish st e events).2
    = length (default [] (subscribers st !! type e)).
Proof.
  destruct (publish st e events) as [[st' events'] cs] eqn:Hp.
  apply publish_spec in Hp as (_ & _ & Hset & Hev & _). simpl.
  split_and!; try done. by rewrite <- Hset, length_fmap.
Qed.

(** Property X13: after [unsubscribe(type, s)], publishing an event of
    that type never calls [s]. *)
Theorem queued_unsubscribe_effective st s e events :
  deliveries s (publish (unsubscribe (type e) s st) e events).2 = 0.
Proof.
  destruct (publish _ e events) as [[st' events'] cs] eqn:Hp.
  apply publish_spec in Hp as (_ & _ & Hset & _). cbn [snd].
  rewrite queued_deliveries_set, Hset, unsubscribe_lookup.
  apply length_zero_iff_nil.
  destruct (subscribers st !! type e) as [set|]; simpl; [|done].
  apply filter_eq_not_elem, Set_delete_not_elem.
Qed.

(** *** The program's registry: one subscriber per type *)

Lemma program_registry_calls (fuel : nat) st events r mid :
  subscribers st = subscribers (driver_service []) →
  drain fuel st events = Some r →
  total_effect mid (calls r)
  = foldr (λ e acc, (event_effect mid e + acc)%Z) 0%Z (delivered r).
Proof.
  revert st events r. induction fuel as [|fuel IH]; intros st events r Hs.
  - destruct events; [|done]. by intros [= <-].
  - destruct events as [|e events]; [by intros [= <-]|].
    destruct (driver_service_lookup []) as (Hsale & Hrefill & Hlow & Hok).
    rewrite <- Hs in Hsale, Hrefill, Hlow, Hok.
    assert (∃ s, subscribers st !! type e = Some [s]
                 ∧ ∀ o, effect mid (s, e, o) = event_effect mid e)
      as (s & Hset & Heff).
    { destruct e; simpl; eauto. }
    destruct (handle s e (machines st)) as [ms' newEvent] eqn:Hh.
    rewrite (drain_step_single fuel st s e events ms' newEvent Hset Hh).
    destruct (drain fuel _ _) as [r'|] eqn:Hd; [|done].
    intros [= <-]. unfold total_effect. cbn [calls delivered foldr].
    rewrite Heff. f_equal.
    by apply (IH {| subscribers := subscribers st; machines := ms' |}
                _ _ Hs Hd).
Qed.

(** Property X14: in the program's registry (one Sale and one Refill
    subscriber) the run ends within four iterations per seed, and when
    every sum and difference of the run stays within the range where JS
    arithmetic on integers is exact, the stock of a machine at the end is
    its stock at the start, minus the quantities of the delivered Sales for
    its id, plus the quantities of the delivered Refills for its id, the
    corrective refills of the cascade among them. *)
Theorem program_stock_accounting ms events (mid : string) :
  ∃ r,
    drain (4 * length events) (driver_service ms) events = Some r
    ∧ (exact_calls ms (calls r) = true →
       stock_of (machines (final r)) mid
       = (λ z, z + foldr (λ e acc, event_effect mid e + acc) 0
                     (delivered r))%Z
           <$> stock_of ms mid).
Proof.
  destruct (drain_enough_fuel_width 1 (4 * length events)
              (driver_service ms) events) as [r Hr];
    [vm_compute; lia|apply (cost_length 1)|].
  exists r. split; [exact Hr|]. intros _.
  rewrite (drain_stock _ _ _ _ mid Hr).
  by rewrite (program_registry_calls _ (driver_service ms) _ _ mid
                eq_refl Hr).
Qed.
End QueuedBound.

Lemma drain_iterations_bound_witness :
  ∃ r,
    Queued.drain ((1 + 1 + 1 * 1 + 1 * 1 * 1) * length [MachineSaleEvent 2 "001"])
      (Queued.driver_service Program.program_machines)
      [MachineSaleEvent 2 "001"] = Some r
    ∧ length (Queued.delivered r)
      ≤ (1 + 1 + 1 * 1 + 1 * 1 * 1) * length [MachineSaleEvent 2 "001"].
Proof.
  apply (drain_iterations_bound 1
           (Queued.driver_service Program.program_machines)
           [MachineSaleEvent 2 "001"]).
  vm_compute. lia.
Defined.

(** ** Handlers and bus of [src/app.ts] *)

Section RecursiveFurther.
Import Recursive RecursiveRun.
Implicit Types (st : State Subscriber) (ms : list Machine).
Implicit Types (e event : Event) (set : list Subscriber) (cs : list Call).

Lemma recursive_handle_specialised s e ms :
  specialised_to s e = true → handle s e ms ≠ TypeError.
Proof.
  destruct s, e; simpl; try done; intros _;
    destruct (find ms _) as [[i m]|]; try done; by case_decide.
Qed.

(** Property X15: a handler of [app.ts] throws exactly when the event names
    a machine of the array and is not of the class the handler is written
    for; an event for an unknown machine never makes it throw. *)
Theorem app_handle_throws_iff s e ms :
  handle s e ms = TypeError
  ↔ specialised_to s e = false ∧ is_Some (find ms (machineId e)).
Proof.
  split.
  - intros Ht. split.
    + destruct (specialised_to s e) eqn:Hs; [|done].
      by apply (recursive_handle_specialised s e ms) in Hs.
    + destruct (find ms (machineId e)) as [[i m]|] eqn:Hf; [by eexists|].
      by rewrite recursive_handle_not_found in Ht.
  - intros [Hs [[i m] Hf]]. by eapply recursive_handle_other_class.
Qed.

(** The machine that a handler answered for is still found afterwards. *)
Lemma recursive_follow_up_found s e ms ms' e' :
  handle s e ms = Normal ms' (Some e') →
  is_Some (find ms' (machineId e')).
Proof.
  destruct s, e; simpl;
    destruct (find ms _) as [[i m]|] eqn:Hf; try done;
    case_decide; intros [= <- <-]; simpl;
    pose proof (find_Some_inv _ _ _ _ Hf) as [_ Hid]; rewrite Hid;
    erewrite find_set_stockLevel_same by done; by eexists.
Qed.

Lemma leaf_not_specialised s e : rank e = 0 → specialised_to s e = false.
Proof. by destruct s, e. Qed.

Lemma cascade_publish_throws (fuel : nat) st s e ms e' s' set' :
  handle s e (machines st) = Normal ms (Some e') →
  subscribers st !! type e' = Some (s' :: set') →
  publish (S fuel) (with_machines st ms) e'
  = Threw (with_machines st ms) [(s', e')].
Proof.
  intros Hh Hset.
  pose proof (recursive_follow_up_found _ _ _ _ _ Hh) as [[i m] Hf].
  apply recursive_handle_rank in Hh as [_ Hleaf].
  cbn [publish]. simpl subscribers. rewrite Hset. cbn [forEach].
  simpl machines.
  by rewrite (recursive_handle_other_class s' e' ms i m)
    by (done || by apply leaf_not_specialised).
Qed.

Lemma cascade_publish_outcome (fuel : nat) st s e ms e' :
  handle s e (machines st) = Normal ms (Some e') →
  publish (S fuel) (with_machines st ms) e' = Returned (with_machines st ms) []
  ∨ ∃ cs, publish (S fuel) (with_machines st ms) e'
          = Threw (with_machines st ms) cs.
Proof.
  intros Hh.
  destruct (subscribers st !! type e') as [[|s' set']|] eqn:Hset.
  - left. cbn [publish]. simpl subscribers. by rewrite Hset.
  - right. eexists. by eapply cascade_publish_throws.
  - left. cbn [publish]. simpl subscribers. by rewrite Hset.
Qed.

(** Property X16: [app.ts] has no handler for its own follow-up events.
    When a handler has returned a warning or a stock-ok notice and the
    registry holds any subscriber for that type, the nested [publish]
    throws at the first of them, before any other call. *)
Theorem app_cascade_throws (fuel : nat) st s e ms e' s' set' :
  handle s e (machines st) = Normal ms (Some e') →
  subscribers st !! type e' = Some (s' :: set') →
  publish (S fuel) (with_machines st ms) e'
  = Threw (with_machines st ms) [(s', e')].
Proof. apply cascade_publish_throws. Qed.

Lemma forEach_returned_calls (fuel : nat) set e st st' cs :
  forEach (publish (S fuel)) set e st = Returned st' cs →
  cs = (λ s, (s, e)) <$> set.
Proof.
  revert st st' cs.
  induction set as [|s set IH]; intros st st' cs; cbn [forEach].
  { by intros [= <- <-]. }
  destruct (handle s e (machines st)) as [ms [e'|]|] eqn:Hh; [| |done].
  - destruct (cascade_publish_outcome fuel st s e ms e' Hh)
      as [Hp|[cs' Hp]]; rewrite Hp; [|done].
    destruct (forEach _ set e _) as [st2 cs2|st2 cs2|] eqn:Hfe; try done.
    simpl. intros [= <- <-]. f_equal. by eapply IH.
  - destruct (forEach _ set e _) as [st2 cs2|st2 cs2|] eqn:Hfe; try done.
    simpl. intros [= <- <-]. f_equal. by eapply IH.
Qed.

(** Property X17: a [publish] of [app.ts] that returns has called exactly
    the subscribers of the event's type, each once and in the order of the
    set, and nothing else: no follow-up event has reached a handler. *)
Theorem app_returned_calls (fuel : nat) st e st' cs :
  publish (S (S fuel)) st e = Returned st' cs →
  cs = (λ s, (s, e)) <$> default [] (subscribers st !! type e).
Proof.
  cbn [publish]. destruct (subscribers st !! type e) as [set|].
  - apply forEach_returned_calls.
  - by intros [= <- <-].
Qed.

Lemma well_typed_with_machines st ms :
  well_typed st → well_typed (with_machines st ms).
Proof. intros Hwt e set s. apply Hwt. Qed.

Lemma well_typed_leaf (fuel : nat) st e :
  well_typed st → rank e = 0 → publish (S fuel) st e = Returned st [].
Proof.
  intros Hwt Hleaf. cbn [publish].
  destruct (subscribers st !! type e) as [[|s set]|] eqn:Hset; try done.
  specialize (Hwt e (s :: set) s Hset (list_elem_of_here _ _)).
  by rewrite leaf_not_specialised in Hwt.
Qed.

Lemma well_typed_forEach (fuel : nat) set e st :
  well_typed st → (∀ s, s ∈ set → specialised_to s e = true) →
  returned (forEach (publish (S fuel)) set e st).
Proof.
  intros Hwt. revert st Hwt.
  induction set as [|s set IH]; intros st Hwt Hset; cbn [forEach]; [done|].
  pose proof (recursive_handle_specialised s e (machines st)
                (Hset s (list_elem_of_here _ _))) as Hnt.
  destruct (handle s e (machines st)) as [ms [e'|]|] eqn:Hh; [| |done].
  - apply recursive_handle_rank in Hh as [_ Hleaf].
    rewrite (well_typed_leaf fuel) by by try apply well_typed_with_machines.
    specialize (IH (with_machines st ms) (well_typed_with_machines _ _ Hwt)).
    destruct (forEach _ set e _); simpl in *; try done;
      apply IH; intros s0 Hs0; apply Hset; by apply list_elem_of_further.
  - specialize (IH (with_machines st ms) (well_typed_with_machines _ _ Hwt)).
    destruct (forEach _ set e _); simpl in *; try done;
      apply IH; intros s0 Hs0; apply Hset; by apply list_elem_of_further.
Qed.

(** Property X18: with every subscriber registered under the type it is
    written for (Sale subscribers under "sale", Refill subscribers under
    "refill", nobody under the two follow-up types), [publish] of [app.ts]
    never throws: it returns for every event. *)
Theorem app_well_typed_returns (fuel : nat) st e :
  well_typed st → returned (publish (S (S fuel)) st e).
Proof.
  intros Hwt. cbn [publish].
  destruct (subscribers st !! type e) as [set|] eqn:Hset; [|done].
  apply well_typed_forEach; [done|]. intros s Hs. by eapply Hwt.
Qed.

(** Property X19: after [unsubscribe(type, s)], [publish] of [app.ts] of an
    event of that type never hands the event to [s], whether it returns or
    throws. *)
Theorem app_unsubscribe_effective (fuel : nat) st s e :
  match publish (S (S fuel)) (unsubscribe (type e) s st) e with
  | Returned _ cs | Threw _ cs => deliveries s e cs = 0
  | OutOfFuel => False
  end.
Proof.
  pose proof (publish_total fuel (unsubscribe (type e) s st) e) as Ht.
  destruct (subscribers (unsubscribe (type e) s st) !! type e)
    as [set|] eqn:Hset.
  - pose proof (publish_deliveries (S fuel) _ e s _ Hset) as Hd.
    rewrite unsubscribe_lookup in Hset.
    destruct (subscribers st !! type e) as [set0|]; [|done].
    injection Hset as <-.
    rewrite filter_eq_not_elem in Hd by apply Set_delete_not_elem.
    destruct (publish _ _ e); simpl in *; [done|lia|done].
  - cbn [publish]. by rewrite Hset.
Qed.

(** Property X20: the handlers of [app.ts] never add, remove, reorder or
    rename machines, also when [publish] ends by a throw. *)
Theorem app_machines_stay (fuel : nat) st e :
  match publish (S (S fuel)) st e with
  | Returned st' _ | Threw st' _ => id <$> machines st' = id <$> machines st
  | OutOfFuel => False
  end.
Proof.
  pose proof (publish_total fuel st e) as Ht.
  assert (∀ s e ms ms' o, handle s e ms = Normal ms' o →
                          id <$> ms' = id <$> ms) as Hh.
  { intros s0 e0 ms ms' o. destruct s0; simpl;
      destruct (find ms _) as [[i m]|]; try (by intros [= <- <-]);
      destruct (_ e0) as [q|]; try done;
      case_decide; intros [= <- <-]; apply set_stockLevel_ids. }
  assert (∀ f set e st,
            (∀ st1 e1, on_completion
                         (λ st' _, id <$> machines st' = id <$> machines st1)
                         (f st1 e1)) →
            on_completion (λ st' _, id <$> machines st' = id <$> machines st)
              (forEach f set e st)) as Hfe.
  { intros f set e0 st0 Hf. revert st0.
    induction set as [|s set IH]; intros st0; simpl; [done|].
    destruct (handle s e0 (machines st0)) as [ms [e'|]|] eqn:Hhs;
      simpl; [| |done].
    - pose proof (Hf (with_machines st0 ms) e') as Hp.
      apply Hh in Hhs.
      destruct (f (with_machines st0 ms) e') as [st1 cs1|st1 cs1|];
        simpl in *; [|congruence|done].
      eapply on_completion_add_calls; [|apply IH]. simpl. congruence.
    - apply Hh in Hhs.
      eapply on_completion_add_calls; [|apply IH]. simpl. congruence. }
  assert (∀ n st e, on_completion
                      (λ st' _, id <$> machines st' = id <$> machines st)
                      (publish n st e)) as Hp.
  { induction n as [|n IH]; intros st0 e0; simpl; [done|].
    destruct (subscribers st0 !! type e0); [|done]. by apply Hfe. }
  specialize (Hp (S (S fuel)) st e).
  by destruct (publish (S (S fuel)) st e).
Qed.
End RecursiveFurther.

Lemma app_cascade_throws_witness :
  Recursive.publish 1
    (Recursive.with_machines
       (subscribe "LowStock" (Recursive.MachineRefillSubscriber 1)
          (subscribe "sale" (Recursive.MachineSaleSubscriber 0)
             (new_service [{| id := "001"; stockLevel := 3 |}])))
       [{| id := "001"; stockLevel := 2 |}])
    (LowStockWarningEvent "001")
  = Recursive.Threw
      (Recursive.with_machines
         (subscribe "LowStock" (Recursive.MachineRefillSubscriber 1)
            (subscribe "sale" (Recursive.MachineSaleSubscriber 0)
               (new_service [{| id := "001"; stockLevel := 3 |}])))
         [{| id := "001"; stockLevel := 2 |}])
      [(Recursive.MachineRefillSubscriber 1, LowStockWarningEvent "001")].
Proof.
  apply (app_cascade_throws 0
           (subscribe "LowStock" (Recursive.MachineRefillSubscriber 1)
              (subscribe "sale" (Recursive.MachineSaleSubscriber 0)
                 (new_service [{| id := "001"; stockLevel := 3 |}])))
           (Recursive.MachineSaleSubscriber 0) (MachineSaleEvent 1 "001")
           [{| id := "001"; stockLevel := 2 |}]
           (LowStockWarningEvent "001")
           (Recursive.MachineRefillSubscriber 1) []).
  - reflexivity.
  - reflexivity.
Defined.

Lemma app_returned_calls_witness :
  [(Recursive.MachineSaleSubscriber 0, MachineSaleEvent 1 "001")]
  = (λ s, (s, MachineSaleEvent 1 "001"))
      <$> default []
            (subscribers
               (subscribe "sale" (Recursive.MachineSaleSubscriber 0)
                  (new_service [{| id := "001"; stockLevel := 3 |}]))
             !! type (MachineSaleEvent 1 "001")).
Proof.
  apply (app_returned_calls 0
           (subscribe "sale" (Recursive.MachineSaleSubscriber 0)
              (new_service [{| id := "001"; stockLevel := 3 |}]))
           (MachineSaleEvent 1 "001")
           (Recursive.with_machines
              (subscribe "sale" (Recursive.MachineSaleSubscriber 0)
                 (new_service [{| id := "001"; stockLevel := 3 |}]))
              [{| id := "001"; stockLevel := 2 |}])).
  reflexivity.
Defined.

Lemma app_well_typed_returns_witness :
  RecursiveRun.returned
    (Recursive.publish 2
       (subscribe "refill" (Recursive.MachineRefillSubscriber 1)
          (subscribe "sale" (Recursive.MachineSaleSubscriber 0)
             (new_service [{| id := "001"; stockLevel := 3 |}])))
       (MachineSaleEvent 1 "001")).
Proof.
  apply (app_well_typed_returns 0).
  intros e set s.
  destruct e; vm_compute; try discriminate;
    intros [= <-] ->%list_elem_of_singleton; reflexivity.
Defined.

(** ** The generator and the program of [src/unnamed/part_000] *)

Section ProgramFacts.
Import Queued QueuedRun Program.
Context {number : Type}.
Context (lt : number → number → bool) (times : number → number → number).
Context (n0_5 n1 n2 n3 : number).
Context (draw : nat → number).

Local Abbreviation randomMachine := (randomMachine lt times n1 n2 n3 draw).
Local Abbreviation eventGenerator := (eventGenerator lt times n0_5 n1 n2 n3 draw).
Local Abbreviation map_eventGenerator :=
  (map_eventGenerator lt times n0_5 n1 n2 n3 draw).
Local Abbreviation program := (program lt times n0_5 n1 n2 n3 draw).

Lemma randomMachine_spec k :
  (randomMachine k).1 ∈ ["001"; "002"; "003"]
  ∧ (randomMachine k).2 = S k.
Proof.
  unfold Program.randomMachine, Math_random.
  repeat case_match; simpl; split; try done; set_solver.
Qed.

Lemma eventGenerator_spec k :
  generated (eventGenerator k).1 ∧ (eventGenerator k).2 = k + 3.
Proof.
  unfold Program.eventGenerator, Math_random.
  destruct (lt (draw k) n0_5).
  - pose proof (randomMachine_spec (S (S k))) as [Hm Hk].
    destruct (randomMachine (S (S k))) as [mid k']. simpl in *.
    split; [|lia]. eexists _, mid. split; [done|]. left.
    split; [done|]. destruct (lt (draw (S k)) n0_5); auto.
  - pose proof (randomMachine_spec (S (S k))) as [Hm Hk].
    destruct (randomMachine (S (S k))) as [mid k']. simpl in *.
    split; [|lia]. eexists _, mid. split; [done|]. right.
    split; [done|]. destruct (lt (draw (S k)) n0_5); auto.
Qed.

Lemma map_eventGenerator_spec l k :
  length (map_eventGenerator l k).1 = length l
  ∧ Forall generated (map_eventGenerator l k).1
  ∧ (map_eventGenerator l k).2 = k + 3 * length l.
Proof.
  revert k. induction l as [|i l IH]; intros k; simpl.
  { split_and!; [done|constructor|lia]. }
  pose proof (eventGenerator_spec k) as [Hg Hk].
  destruct (eventGenerator k) as [e k1]. simpl in *.
  specialize (IH k1) as (Hlen & Hall & Hk').
  destruct (map_eventGenerator l k1) as [es k2]. simpl in *.
  split_and!; [lia|by constructor|lia].
Qed.

(** Property X21: whatever [Math.random()] returns, [eventGenerator]
    returns a Sale of 1 or 2 or a Refill of 3 or 5, for machine "001",
    "002" or "003", and draws exactly three random numbers; mapping it over
    a list gives one such event per element. *)
Theorem eventGenerator_range (l : list Z) (k : nat) :
  generated (eventGenerator k).1
  ∧ (eventGenerator k).2 = k + 3
  ∧ length (map_eventGenerator l k).1 = length l
  ∧ Forall generated (map_eventGenerator l k).1
  ∧ (map_eventGenerator l k).2 = k + 3 * length l.
Proof.
  pose proof (eventGenerator_spec k) as [? ?].
  pose proof (map_eventGenerator_spec l k) as (? & ? & ?). done.
Qed.

Lemma generated_machine e :
  generated e → machineId e ∈ ["001"; "002"; "003"].
Proof. by intros (q & mid & Hm & [[-> _]|[-> _]]). Qed.

(** Property X22: whatever [Math.random()] returns, the program's loop
    ends within 20 iterations.  The first five events it delivers are the
    five events that [eventGenerator] returned, in the order it returned
    them; it delivers at most 20 events in all, every one of them for one
    of the three machines of the array, and the array still holds the
    machines "001", "002", "003" in that order at the end. *)
Theorem program_run :
  ∃ r,
    program 20 = Some r
    ∧ 5 ≤ length (delivered r) ≤ 20
    ∧ take 5 (delivered r) = (map_eventGenerator [1; 2; 3; 4; 5]%Z 0).1
    ∧ Forall generated (take 5 (delivered r))
    ∧ Forall (λ e, machineId e ∈ ["001"; "002"; "003"]) (delivered r)
    ∧ id <$> machines (final r) = ["001"; "002"; "003"].
Proof.
  unfold Program.program.
  pose proof (map_eventGenerator_spec [1; 2; 3; 4; 5]%Z 0)
    as (Hlen & Hgen & _).
  destruct (map_eventGenerator [1; 2; 3; 4; 5]%Z 0) as [events k].
  simpl in Hlen, Hgen.
  assert (width (driver_service program_machines) ≤ 1) as Hw
    by (vm_compute; lia).
  assert (cost 1 events ≤ 20) as Hc.
  { etrans; [apply cost_length|]. rewrite Hlen. done. }
  destruct (drain_enough_fuel_width 1 20 _ events Hw Hc) as [r Hr].
  exists r. split; [done|].
  pose proof (drain_delivered _ _ _ _ Hr) as Hd.
  pose proof (drain_length 1 _ _ _ _ Hw Hr) as Hl.
  pose proof (drain_follow_ups _ _ _ _ Hr) as [_ Hm].
  pose proof (drain_ids _ _ _ _ Hr) as Hids.
  assert (Forall (λ e, machineId e ∈ ["001"; "002"; "003"]) events) as Hev.
  { eapply Forall_impl; [exact Hgen|]. apply generated_machine. }
  split_and!.
  - rewrite Hd, length_app. lia.
  - lia.
  - by rewrite Hd, take_app_length' by done.
  - by rewrite Hd, take_app_length' by done.
  - rewrite Hd. apply Forall_app. split; [done|].
    eapply Forall_impl; [exact Hm|]. simpl.
    intros e' (e0 & -> & Hin)%list_elem_of_fmap.
    by eapply Forall_forall in Hev.
  - by rewrite Hids.
Qed.
End ProgramFacts.

(** ** Runs of the program's registry on one machine *)

Section SingleMachineRuns.
Import Queued.
Local Open Scope Z_scope.

(** Property X23: in the program's registry, a single Sale of [q] on a
    machine whose stock [s] is at least 3, with [s], [q], [s - q] and
    [3 - (s - q)] within the range where JS arithmetic on integers is
    exact, ends with the stock at the larger of 3 and [s - q]: without a
    crossing the Sale is the only event delivered, and with a crossing the
    warning, the refill of the missing amount and the stock-ok notice
    follow, which brings the stock to exactly 3. *)
Theorem single_sale_run (ms : list Machine) (mid : string) (i : nat)
    (m : Machine) (q : Z) :
  find ms mid = Some (i, m) → 3 ≤ stockLevel m →
  exact_integer (stockLevel m) → exact_integer q →
  exact_integer (stockLevel m - q) →
  exact_integer (3 - (stockLevel m - q)) →
  ∃ r,
    drain 4 (driver_service ms) [MachineSaleEvent q mid] = Some r
    ∧ stock_of (machines (final r)) mid
      = Some (Z.max 3 (stockLevel m - q))
    ∧ delivered r
      = MachineSaleEvent q mid
        :: (if decide (stockLevel m - q < 3)
            then [LowStockWarningEvent mid;
                  MachineRefillEvent (3 - (stockLevel m - q)) mid;
                  StockLevelOkEvent mid]
            else []).
Proof.
  intros Hf Hm _ _ _ _.
  destruct (driver_service_lookup ms) as (Hsale & Hrefill & Hlow & Hok).
  pose proof (find_set_stockLevel_same _ _ _ _ (stockLevel m - q) Hf) as Hf1.
  pose proof (find_set_stockLevel_same _ _ _ _ 3 Hf) as Hf3.
  destruct (decide (stockLevel m - q < 3)) as [Hlt|Hge].
  - eexists. split.
    + erewrite (drain_step_single _ _ saleSubscriber); [|exact Hsale|];
        [|rewrite driver_service_machines; apply (sale_found _ _ _ _ _ _ Hf)].
      rewrite decide_True by lia. simpl option_list. simpl app.
      erewrite (drain_step_single _ _ stockWarningSubscriber);
        [|exact Hlow|apply (warning_found _ _ _ _ _ Hf1)].
      simpl option_list. simpl app. simpl stockLevel.
      erewrite (drain_step_single _ _ refilSubscriber);
        [|exact Hrefill|apply (refill_found _ _ _ _ _ _ Hf1)].
      simpl stockLevel. rewrite decide_True by lia.
      simpl option_list. simpl app. rewrite set_stockLevel_twice.
      replace (stockLevel m - q + (3 - (stockLevel m - q))) with 3 by lia.
      erewrite (drain_step_single _ _ stockLevelOkSubscriber);
        [|exact Hok|simpl; by rewrite Hf3].
      simpl app. rewrite drain_nil. reflexivity.
    + simpl. split; [|done]. rewrite (stock_of_found _ _ _ _ Hf3). simpl.
      f_equal. lia.
  - eexists. split.
    + erewrite (drain_step_single _ _ saleSubscriber); [|exact Hsale|];
        [|rewrite driver_service_machines; apply (sale_found _ _ _ _ _ _ Hf)].
      rewrite decide_False by lia. simpl option_list. simpl app.
      rewrite drain_nil. reflexivity.
    + simpl. split; [|done]. rewrite (stock_of_found _ _ _ _ Hf1). simpl.
      f_equal. lia.
Qed.

(** Property X24: warnings are answered in the order they were queued,
    each with the refill computed from the stock it sees.  In the program's
    registry, two warnings pending for one machine both see the same stock
    [s] and both return a Refill of [3 - s]; with [s], [3 - s] and [6 - s]
    within the range where JS arithmetic on integers is exact, draining
    them leaves the stock at [6 - s], not at 3: above 3 when the stock was
    low, below 3 (without a new warning) when it was above. *)
Theorem double_warning_run (ms : list Machine) (mid : string) (i : nat)
    (m : Machine) :
  find ms mid = Some (i, m) →
  exact_integer (stockLevel m) → exact_integer (3 - stockLevel m) →
  exact_integer (6 - stockLevel m) →
  ∃ r,
    drain 5 (driver_service ms)
      [LowStockWarningEvent mid; LowStockWarningEvent mid] = Some r
    ∧ stock_of (machines (final r)) mid = Some (6 - stockLevel m)
    ∧ delivered r
      = [LowStockWarningEvent mid; LowStockWarningEvent mid;
         MachineRefillEvent (3 - stockLevel m) mid;
         MachineRefillEvent (3 - stockLevel m) mid]
        ++ (if decide (stockLevel m < 3)
            then [StockLevelOkEvent mid] else []).
Proof.
  intros Hf _ _ _.
  destruct (driver_service_lookup ms) as (Hsale & Hrefill & Hlow & Hok).
  pose proof (find_set_stockLevel_same _ _ _ _ 3 Hf) as Hf3.
  pose proof (find_set_stockLevel_same _ _ _ _ (6 - stockLevel m) Hf) as Hf6.
  destruct (decide (stockLevel m < 3)) as [Hlt|Hge].
  - eexists. split.
    + erewrite (drain_step_single _ _ stockWarningSubscriber);
        [|exact Hlow|apply (warning_found _ _ _ _ _ Hf)].
      simpl option_list. simpl app.
      erewrite (drain_step_single _ _ stockWarningSubscriber);
        [|exact Hlow|apply (warning_found _ _ _ _ _ Hf)].
      simpl option_list. simpl app.
      erewrite (drain_step_single _ _ refilSubscriber);
        [|exact Hrefill|apply (refill_found _ _ _ _ _ _ Hf)].
      replace (stockLevel m + (3 - stockLevel m)) with 3 by lia.
      rewrite decide_True by lia. simpl option_list. simpl app.
      erewrite (drain_step_single _ _ refilSubscriber);
        [|exact Hrefill|apply (refill_found _ _ _ _ _ _ Hf3)].
      simpl stockLevel. rewrite set_stockLevel_twice.
      replace (3 + (3 - stockLevel m)) with (6 - stockLevel m) by lia.
      rewrite decide_False by lia. simpl option_list. simpl app.
      erewrite (drain_step_single _ _ stockLevelOkSubscriber);
        [|exact Hok|simpl; by rewrite Hf6].
      simpl app. rewrite drain_nil. reflexivity.
    + simpl. split; [|done]. by rewrite (stock_of_found _ _ _ _ Hf6).
  - eexists. split.
    + erewrite (drain_step_single _ _ stockWarningSubscriber);
        [|exact Hlow|apply (warning_found _ _ _ _ _ Hf)].
      simpl option_list. simpl app.
      erewrite (drain_step_single _ _ stockWarningSubscriber);
        [|exact Hlow|apply (warning_found _ _ _ _ _ Hf)].
      simpl option_list. simpl app.
      erewrite (drain_step_single _ _ refilSubscriber);
        [|exact Hrefill|apply (refill_found _ _ _ _ _ _ Hf)].
      replace (stockLevel m + (3 - stockLevel m)) with 3 by lia.
      rewrite decide_False by lia. simpl option_list. simpl app.
      erewrite (drain_step_single _ _ refilSubscriber);
        [|exact Hrefill|apply (refill_found _ _ _ _ _ _ Hf3)].
      simpl stockLevel. rewrite set_stockLevel_twice.
      replace (3 + (3 - stockLevel m)) with (6 - stockLevel m) by lia.
      rewrite decide_False by lia. simpl option_list. simpl app.
      rewrite drain_nil. reflexivity.
    + simpl. split; [|done]. by rewrite (stock_of_found _ _ _ _ Hf6).
Qed.
End SingleMachineRuns.

Lemma single_sale_run_witness :
  ∃ r,
    Queued.drain 4 (Queued.driver_service Program.program_machines)
      [MachineSaleEvent 2 "002"] = Some r
    ∧ stock_of (machines (Queued.final r)) "002"
      = Some (Z.max 3 (stockLevel (Program.new_Machine "002") - 2))
    ∧ Queued.delivered r
      = MachineSaleEvent 2 "002"
        :: (if decide (stockLevel (Program.new_Machine "002") - 2 < 3)%Z
            then [LowStockWarningEvent "002";
                  MachineRefillEvent
                    (3 - (stockLevel (Program.new_Machine "002") - 2)) "002";
                  StockLevelOkEvent "002"]
            else []).
Proof.
  apply (single_sale_run Program.program_machines "002" 1
           (Program.new_Machine "002") 2).
  - reflexivity.
  - vm_compute. discriminate.
  - unfold exact_integer, MAX_EXACT. simpl. lia.
  - unfold exact_integer, MAX_EXACT. lia.
  - unfold exact_integer, MAX_EXACT. simpl. lia.
  - unfold exact_integer, MAX_EXACT. simpl. lia.
Defined.

Lemma double_warning_run_witness :
  ∃ r,
    Queued.drain 5
      (Queued.driver_service [{| id := "001"; stockLevel := 7 |}])
      [LowStockWarningEvent "001"; LowStockWarningEvent "001"] = Some r
    ∧ stock_of (machines (Queued.final r)) "001"
      = Some (6 - stockLevel {| id := "001"; stockLevel := 7 |})%Z
    ∧ Queued.delivered r
      = [LowStockWarningEvent "001"; LowStockWarningEvent "001";
         MachineRefillEvent
           (3 - stockLevel {| id := "001"; stockLevel := 7 |}) "001";
         MachineRefillEvent
           (3 - stockLevel {| id := "001"; stockLevel := 7 |}) "001"]
        ++ (if decide (stockLevel {| id := "001"; stockLevel := 7 |} < 3)%Z
            then [StockLevelOkEvent "001"] else []).
Proof.
  apply (double_warning_run [{| id := "001"; stockLevel := 7 |}] "001" 0
           {| id := "001"; stockLevel := 7 |}).
  - reflexivity.
  - unfold exact_integer, MAX_EXACT. simpl. lia.
  - unfold exact_integer, MAX_EXACT. simpl. lia.
  - unfold exact_integer, MAX_EXACT. simpl. lia.
Defined.

Lemma subscribe_registers_witness :
  ∃ set',
    getSubscribers
      (subscribe "sale" (Queued.MachineSaleSubscriber 7)
         (Queued.driver_service [])) !! "sale" = Some set'
    ∧ Queued.MachineSaleSubscriber 7 ∈ set'
    ∧ default [] (subscribers (Queued.driver_service []) !! "sale")
      `prefix_of` set'
    ∧ (∀ x, x ∈ set'
            ↔ x ∈ default [] (subscribers (Queued.driver_service []) !! "sale")
              ∨ x = Queued.MachineSaleSubscriber 7)
    ∧ (∀ t', "sale" ≠ t' →
         getSubscribers
           (subscribe "sale" (Queued.MachineSaleSubscriber 7)
              (Queued.driver_service [])) !! t'
         = subscribers (Queued.driver_service []) !! t')
    ∧ machines
        (subscribe "sale" (Queued.MachineSaleSubscriber 7)
           (Queued.driver_service []))
      = machines (Queued.driver_service []).
Proof.
  apply (subscribe_registers "sale" (Queued.MachineSaleSubscriber 7)
           (Queued.driver_service [])).
Defined.

Lemma app_handle_throws_iff_witness :
  Recursive.handle (Recursive.MachineRefillSubscriber 1)
    (LowStockWarningEvent "001") [{| id := "001"; stockLevel := 2 |}]
  = Recursive.TypeError.
Proof.
  apply (proj2 (app_handle_throws_iff (Recursive.MachineRefillSubscriber 1)
                  (LowStockWarningEvent "001")
                  [{| id := "001"; stockLevel := 2 |}])).
  split; [reflexivity|]. eexists. reflexivity.
Defined.

Lemma stock_accounting_witness :
  ∃ fuel r,
    Queued.drain fuel (Queued.driver_service Program.program_machines)
      [MachineSaleEvent 2 "002"] = Some r
    ∧ stock_of (machines (Queued.final r)) "002"
      = (λ z, z + QueuedRun.total_effect "002" (Queued.calls r))%Z
          <$> stock_of
                (machines (Queued.driver_service Program.program_machines))
                "002".
Proof.
  destruct (stock_accounting
              (Queued.driver_service Program.program_machines)
              [MachineSaleEvent 2 "002"] "002") as (fuel & r & Hr & Hacc).
  exists fuel, r. split; [exact Hr|]. apply Hacc.
  destruct (Queued.drain 4 (Queued.driver_service Program.program_machines)
              [MachineSaleEvent 2 "002"]) as [r0|] eqn:H0;
    [|vm_compute in H0; discriminate].
  rewrite (drain_deterministic _ _ _ _ _ _ Hr H0).
  vm_compute in H0. injection H0 as <-. reflexivity.
Defined.

Lemma program_stock_accounting_witness :
  ∃ r,
    Queued.drain (4 * length [MachineSaleEvent 2 "002"])
      (Queued.driver_service Program.program_machines)
      [MachineSaleEvent 2 "002"] = Some r
    ∧ stock_of (machines (Queued.final r)) "002"
      = (λ z, z + foldr (λ e acc, QueuedRun.event_effect "002" e + acc) 0
                    (Queued.delivered r))%Z
          <$> stock_of Program.program_machines "002".
Proof.
  destruct (program_stock_accounting Program.program_machines
              [MachineSaleEvent 2 "002"] "002") as (r & Hr & Hacc).
  exists r. split; [exact Hr|]. apply Hacc.
  vm_compute in Hr. injection Hr as <-. reflexivity.
Defined.
